(** * Password generator: generation algorithm and strength heuristic

    A shallow embedding of [generatePassword] and [estimateStrength] from
    [src/index.js], together with the properties stated about them.

    Conventions of the embedding.
    - A JavaScript string is the list of its UTF-16 code units ([jsstring]).
    - [undefined] (an out-of-range index read, an array hole) is [None].
    - [Math.random()] is a draw from an explicit random source, a stream of
      rationals of the half-open unit interval; the source is threaded
      through the generator by explicit state passing.
    - [settings.length] is an integer ([Z]), as the data model has it. *)

From Stdlib Require Import NArith ZArith QArith Qround List String Ascii Bool Lia.
From Stdlib Require Import Permutation Reals Lra.
From Stdlib Require DecimalString.
From Equations Require Import Equations.
Import ListNotations.

Local Open Scope Z_scope.

(** ** Strings *)

Definition char := N.
Definition jsstring := list char.

Abbreviation len := Datatypes.length.

(** A string literal of the source, as code units. *)
Definition str (s : string) : jsstring :=
  List.map N_of_ascii (list_ascii_of_string s).

(** [s.includes(ch)] for a one-character [ch]. *)
Definition includes (s : jsstring) (ch : char) : bool :=
  existsb (N.eqb ch) s.

(** [s[i]]: [undefined] outside [0 .. s.length-1]. *)
Definition str_at (s : jsstring) (i : Z) : option char :=
  if i <? 0 then None else nth_error s (Z.to_nat i).

(** [pools.join('')] on an array of strings. *)
Definition join (pools : list jsstring) : jsstring := List.concat pools.

(** [chars.join('')] on an array of characters: [undefined] prints as the
    empty string. *)
Definition join_chars (a : list (option char)) : jsstring :=
  List.concat (List.map (fun v => match v with Some c => [c] | None => [] end) a).

(** [Array.from(new Set(a))]: the distinct elements of [a] in order of
    first insertion. *)
Definition Set_add (seen : jsstring) (ch : char) : jsstring :=
  if includes seen ch then seen else seen ++ [ch].

Definition Array_from_Set (a : jsstring) : jsstring :=
  fold_left Set_add a [].

(** ** Character sets *)

Definition LOWER : jsstring := str "abcdefghijklmnopqrstuvwxyz".
Definition UPPER : jsstring := str "ABCDEFGHIJKLMNOPQRSTUVWXYZ".
Definition NUMBERS : jsstring := str "0123456789".
Definition SYMBOLS : jsstring := str "!@#$%^&*()-_=+[]{};:,.<>/?".

(** The characters often confused: zero, capital o, one, small l, capital i,
    the bar, the backtick, the single quote and the double quote (code
    unit 34). *)
Definition SIMILAR : jsstring := str "0O1lI|`'" ++ [34%N].

Definition not_similar (ch : char) : bool := negb (includes SIMILAR ch).

(** ** Arrays *)

(** [a[i]] on an array of characters. *)
Definition arr_get (a : list (option char)) (i : Z) : option char :=
  if i <? 0 then None
  else match nth_error a (Z.to_nat i) with
       | Some v => v
       | None => None
       end.

Fixpoint upd (a : list (option char)) (i : nat) (v : option char)
  : list (option char) :=
  match a, i with
  | [], _ => []
  | _ :: t, O => v :: t
  | h :: t, S i' => h :: upd t i' v
  end.

(** [a[i] = v]: replaces in range, extends the array with holes past its
    end, and leaves the elements alone for a negative [i] (which only adds
    a property to the object). *)
Definition arr_set (a : list (option char)) (i : Z) (v : option char)
  : list (option char) :=
  if i <? 0 then a
  else if (Z.to_nat i <? len a)%nat then upd a (Z.to_nat i) v
  else a ++ repeat None (Z.to_nat i - len a)%nat ++ [v].

(** [a.slice(0, e)] for an integer [e]. *)
Definition slice0 (a : list (option char)) (e : Z) : list (option char) :=
  if e <? 0 then firstn (len a - Z.to_nat (- e))%nat a
  else firstn (Z.to_nat e) a.

(** ** The random source *)

(** A value of [Math.random()]: a number [u] with [0 <= u < 1]. *)
Definition in_unit (q : Q) : bool := Qle_bool 0 q && negb (Qle_bool 1 q).

Record U01 : Type := mkU01 { u_val : Q; u_ok : in_unit u_val = true }.

(** The source is the stream of the values the successive calls return. *)
Definition RandomSource := nat -> U01.

Definition Math_random (rng : RandomSource) : U01 * RandomSource :=
  (rng O, fun k => rng (S k)).

(** [Math.floor(Math.random() * n)].  The product is taken exactly, where
    the code rounds it to a double: the two indices can differ, both lie
    in [0 .. n-1], and the statements below use the index only through
    that range and through the draw it comes from. *)
Definition random_index (n : nat) (rng : RandomSource) : Z * RandomSource :=
  let '(u, rng') := Math_random rng in
  (Qfloor (u_val u * inject_Z (Z.of_nat n)), rng').

(** ** Settings *)

Record Settings : Type := mkSettings {
  length : Z;
  includeLower : bool;
  includeUpper : bool;
  includeNumbers : bool;
  includeSymbols : bool;
  excludeSimilarChars : bool;
  guaranteeEachType : bool
}.

(** ** generatePassword *)

(** Lines 95-99: the alphabets of the enabled classes, in canonical order. *)
Definition pools_of (options : Settings) : list jsstring :=
  (if includeLower options then [LOWER] else []) ++
  (if includeUpper options then [UPPER] else []) ++
  (if includeNumbers options then [NUMBERS] else []) ++
  (if includeSymbols options then [SYMBOLS] else []).

(** Lines 104-109: the allowed characters before the fallback test. *)
Definition allowed_filtered (options : Settings) : jsstring :=
  let allowed := join (pools_of options) in
  if excludeSimilarChars options
  then Array_from_Set (filter not_similar allowed)
  else allowed.

(** Line 112: the fallback to the unfiltered pools. *)
Definition allowed_of (options : Settings) : jsstring :=
  let allowed := allowed_filtered options in
  if (len allowed =? 0)%nat then join (pools_of options) else allowed.

(** Line 120: the alphabet a guaranteed character is drawn from. *)
Definition poolStr_of (excl : bool) (pool : jsstring) : jsstring :=
  if excl then filter not_similar pool else pool.

(** Lines 118-125: one character of each pool. *)
Fixpoint guarantee_each (excl : bool) (pools : list jsstring)
    (passwordChars : list (option char)) (rng : RandomSource)
  : list (option char) * RandomSource :=
  match pools with
  | [] => (passwordChars, rng)
  | pool :: rest =>
      let poolStr := poolStr_of excl pool in
      if (0 <? len poolStr)%nat then
        let '(idx, rng) := random_index (len poolStr) rng in
        guarantee_each excl rest (passwordChars ++ [str_at poolStr idx]) rng
      else guarantee_each excl rest passwordChars rng
  end.

(** Lines 129-132: fill up to the requested length. *)
Equations? fill (allowed : jsstring) (length : Z)
    (passwordChars : list (option char)) (rng : RandomSource)
  : list (option char) * RandomSource
  by wf (Z.to_nat (length - Z.of_nat (len passwordChars))) lt :=
fill allowed length passwordChars rng with
    Z_lt_dec (Z.of_nat (len passwordChars)) length => {
  | left _ =>
      let '(idx, rng') := random_index (len allowed) rng in
      fill allowed length (passwordChars ++ [str_at allowed idx]) rng';
  | right _ => (passwordChars, rng) }.
Proof.
  rewrite length_app. simpl. lia.
Qed.

(** Lines 135-138: Fisher-Yates, for [i] from the last index down to 1. *)
Fixpoint shuffle_from (i : nat) (passwordChars : list (option char))
    (rng : RandomSource) : list (option char) * RandomSource :=
  match i with
  | O => (passwordChars, rng)
  | S i' =>
      let '(j, rng) := random_index (i + 1)%nat rng in
      let ai := arr_get passwordChars (Z.of_nat i) in
      let aj := arr_get passwordChars j in
      let passwordChars := arr_set (arr_set passwordChars (Z.of_nat i) aj) j ai in
      shuffle_from i' passwordChars rng
  end.

Definition generatePassword (options : Settings) (rng : RandomSource)
  : jsstring * RandomSource :=
  if length options <=? 0 then ([], rng)
  else
    let pools := pools_of options in
    if (len pools =? 0)%nat then ([], rng)
    else
      let allowed := allowed_of options in
      let '(passwordChars, rng) :=
        if guaranteeEachType options
        then guarantee_each (excludeSimilarChars options) pools [] rng
        else ([], rng) in
      let '(passwordChars, rng) := fill allowed (length options) passwordChars rng in
      let '(passwordChars, rng) :=
        shuffle_from (len passwordChars - 1)%nat passwordChars rng in
      (join_chars (slice0 passwordChars (length options)), rng).

(** ** estimateStrength *)

(** The argument of [estimateStrength]: a string, or nothing. *)
Inductive jsvalue : Type :=
| JsUndefined
| JsNull
| JsString (s : jsstring).

(** [!pw] is true for [undefined], [null] and the empty string. *)
Definition truthy (v : jsvalue) : bool :=
  match v with
  | JsString (_ :: _) => true
  | _ => false
  end.

Definition string_of (v : jsvalue) : jsstring :=
  match v with
  | JsString s => s
  | _ => []
  end.

Definition in_range (lo hi : N) (ch : char) : bool :=
  ((lo <=? ch) && (ch <=? hi))%N.

(** [/[a-z]/.test(pw)], [/[A-Z]/.test(pw)], [/[0-9]/.test(pw)]. *)
Definition test_lower (pw : jsstring) : bool := existsb (in_range 97 122) pw.
Definition test_upper (pw : jsstring) : bool := existsb (in_range 65 90) pw.
Definition test_digit (pw : jsstring) : bool := existsb (in_range 48 57) pw.

(** The character class of the fourth pattern, escapes removed. *)
Definition SYMBOL_CLASS : jsstring := str "!@#$%^&*()-_=+[]{};:,.<>/?".

Definition test_symbol (pw : jsstring) : bool :=
  existsb (includes SYMBOL_CLASS) pw.

(** Lines 148-152. *)
Definition poolSize_of (pw : jsstring) : Z :=
  let poolSize := 0 in
  let poolSize := if test_lower pw then poolSize + 26 else poolSize in
  let poolSize := if test_upper pw then poolSize + 26 else poolSize in
  let poolSize := if test_digit pw then poolSize + 10 else poolSize in
  let poolSize := if test_symbol pw then poolSize + 32 else poolSize in
  poolSize.

(** [bits > t] for [bits = poolSize > 0 ? pw.length * Math.log2(poolSize) : 0]
    and an integer threshold [t], decided on integers:
    [n * log2 p > t] exactly when [p ^ n > 2 ^ t]. *)
Definition bits_exceed (pw : jsstring) (t : Z) : bool :=
  let poolSize := poolSize_of pw in
  if 0 <? poolSize
  then 2 ^ t <? poolSize ^ Z.of_nat (len pw)
  else t <? 0.

Definition labels : list jsstring :=
  [str "Very weak"; str "Weak"; str "Okay"; str "Strong"; str "Very strong"].

Record StrengthResult : Type := mkResult {
  score : Z;
  label : option jsstring
}.

(** [labels[score]]. *)
Definition label_at (score : Z) : option jsstring :=
  if score <? 0 then None else nth_error labels (Z.to_nat score).

Definition estimateStrength (pw : jsvalue) : StrengthResult :=
  if negb (truthy pw) then mkResult 0 (Some (str "Too short"))
  else
    let pw := string_of pw in
    let score :=
      if bits_exceed pw 80 then 4
      else if bits_exceed pw 60 then 3
      else if bits_exceed pw 40 then 2
      else if bits_exceed pw 20 then 1
      else 0 in
    mkResult score (label_at score).

(** ** generateAndShow *)

(** What [generateAndShow] writes to the page: the password field, the
    width and the background of the strength bar, the strength text. *)
Record View : Type := mkView {
  passwordOutput_value : jsstring;
  strengthFill_width : jsstring;
  strengthFill_background : jsstring;
  strengthText_textContent : jsstring
}.

(** An integer number converted to a string. *)
Definition number_string (n : Z) : jsstring :=
  str (DecimalString.NilZero.string_of_int (Z.to_int n)).

(** A value substituted in a template string. *)
Definition template_string (v : option jsstring) : jsstring :=
  match v with
  | Some s => s
  | None => str "undefined"
  end.

(** Lines 181-201, for the settings object [opts] of lines 171-179.
    [(st.score / 4) * 100] is the integer [score * 100 / 4], which
    [Math.round] leaves as it is.  The text for an empty password is the
    three code units the source file holds there. *)
Definition generateAndShow (opts : Settings) (rng : RandomSource)
  : View * RandomSource :=
  let '(pw, rng) := generatePassword opts rng in
  let st := estimateStrength (JsString pw) in
  let percent := score st * 100 / 4 in
  let width := number_string percent ++ str "%" in
  let background :=
    if score st <=? 1 then str "linear-gradient(90deg, #ff6b6b, #ffb86b)"
    else if score st =? 2 then str "linear-gradient(90deg, #ffd166, #fef08a)"
    else if score st =? 3 then str "linear-gradient(90deg, #9be15d, #00e3ae)"
    else str "linear-gradient(90deg, #7afcff, #9b7bff)" in
  let text :=
    if truthy (JsString pw)
    then template_string (label st) ++ str " (" ++
         number_string (score st * 100 / 4) ++ str "%)"
    else [226; 8364; 8221]%N in
  (mkView pw width background text, rng).

(** ** The length field

    The listener of lines 31-39 on the number field: the value it writes
    to both length inputs, from the numbers [Number(lengthNumber.value)],
    [Number(lengthNumber.min)] and [Number(lengthNumber.max)].  A number is
    a rational or [NaN] ([None]); a comparison with [NaN] is false. *)

Definition jsnum := option Q.

Definition isNaN (v : jsnum) : bool :=
  match v with
  | None => true
  | Some _ => false
  end.

(** [a < b] on numbers. *)
Definition num_lt (a b : jsnum) : bool :=
  match a, b with
  | Some x, Some y => negb (Qle_bool y x)
  | _, _ => false
  end.

Definition lengthNumber_input (value min max : jsnum) : jsnum :=
  let v := value in
  let v := if isNaN v || num_lt v min then min else v in
  let v := if num_lt max v then max else v in
  v.


(** ** Vocabulary of the statements *)

(** The number of class flags that are set. *)
Definition enabled_count (options : Settings) : nat :=
  ((if includeLower options then 1 else 0) +
   (if includeUpper options then 1 else 0) +
   (if includeNumbers options then 1 else 0) +
   (if includeSymbols options then 1 else 0))%nat.

(** [pw] has a character of [alphabet] that, when [excludeSimilarChars] is
    set, is not a similar character. *)
Definition has_filtered (options : Settings) (alphabet pw : jsstring) : Prop :=
  exists c, In c pw /\ In c alphabet /\
            (excludeSimilarChars options = true -> ~ In c SIMILAR).

(** [c] is a character of the alphabet of a class whose flag is set. *)
Definition in_enabled_class (options : Settings) (c : char) : Prop :=
  (includeLower options = true /\ In c LOWER) \/
  (includeUpper options = true /\ In c UPPER) \/
  (includeNumbers options = true /\ In c NUMBERS) \/
  (includeSymbols options = true /\ In c SYMBOLS).

(** At least one of the four class flags is set. *)
Definition any_class (options : Settings) : bool :=
  includeLower options || includeUpper options ||
  includeNumbers options || includeSymbols options.

(** The fallback assignment of line 112 is executed: the call got past both
    early returns and found [allowed] empty. *)
Definition fallback_taken (options : Settings) : bool :=
  negb (length options <=? 0) &&
  negb (len (pools_of options) =? 0)%nat &&
  (len (allowed_filtered options) =? 0)%nat.

(** [from P v]: the array element [v] is a character, and it satisfies [P]. *)
Definition from (P : char -> Prop) (v : option char) : Prop :=
  match v with
  | Some c => P c
  | None => False
  end.

(** The buffer after lines 117-126. *)
Definition seeded (options : Settings) (rng : RandomSource)
  : list (option char) * RandomSource :=
  if guaranteeEachType options
  then guarantee_each (excludeSimilarChars options) (pools_of options) [] rng
  else ([], rng).

(** The four fixed class alphabets. *)
Definition CLASSES : list jsstring := [LOWER; UPPER; NUMBERS; SYMBOLS].

(** *** The entropy estimate over the reals

    Lines 155-163 read with [Math.log2] as the real logarithm to base 2 and
    the product taken exactly.  [estimateStrength] above decides the same
    comparisons on integers; [bits_exceed_spec] relates the two. *)

Definition log2 (x : R) : R := (ln x / ln 2)%R.

Definition bits_of (pw : jsstring) : R :=
  if 0 <? poolSize_of pw
  then (INR (len pw) * log2 (IZR (poolSize_of pw)))%R
  else 0%R.

Definition score_of_bits (bits : R) : Z :=
  if Rlt_dec 80 bits then 4
  else if Rlt_dec 60 bits then 3
  else if Rlt_dec 40 bits then 2
  else if Rlt_dec 20 bits then 1
  else 0.

(** The password contains a character of the given alphabet. *)
Definition has_class (alphabet pw : jsstring) : bool :=
  existsb (includes alphabet) pw.

(** ** The draws of a run *)

(** The source after [n] calls of [Math.random()]. *)
Definition after (n : nat) (rng : RandomSource) : RandomSource :=
  fun k => rng (n + k)%nat.

(** Two sources return the same first [n] values. *)
Definition agree (n : nat) (r1 r2 : RandomSource) : Prop :=
  forall k, (k < n)%nat -> r1 k = r2 k.

(** The index [Math.floor(u * n)] of a drawn value [u]. *)
Definition draw_index (n : nat) (u : U01) : Z :=
  Qfloor (u_val u * inject_Z (Z.of_nat n)).

(** The characters pushed by lines 117-126. *)
Definition seed_count (options : Settings) : nat :=
  if guaranteeEachType options then len (pools_of options) else O.

(** The length of the buffer that is shuffled. *)
Definition buffer_length (options : Settings) : nat :=
  Nat.max (seed_count options) (Z.to_nat (length options)).

(** The calls of [Math.random()] in one call of [generatePassword]: one for
    each buffer element (guaranteed or filled) and one for each step of the
    shuffle. *)
Definition draws (options : Settings) : nat :=
  if (length options <=? 0) || negb (any_class options) then O
  else (buffer_length options + (buffer_length options - 1))%nat.

(** ** Sample inputs *)

Definition U_zero : U01 := mkU01 0 eq_refl.
Definition U_half : U01 := mkU01 (1#2) eq_refl.
Definition U_two_thirds : U01 := mkU01 (2#3) eq_refl.

(** A source that returns 1/2, 2/3, 0, 1/2, 2/3, 0, ... *)
Definition rng_cycle : RandomSource :=
  fun k =>
    match Nat.modulo k 3 with
    | O => U_half
    | 1%nat => U_two_thirds
    | _ => U_zero
    end.

(** A source that always returns 0. *)
Definition rng_zero : RandomSource := fun _ => U_zero.

(** All classes, similar characters excluded, one of each guaranteed. *)
Definition all_on (L : Z) : Settings := mkSettings L true true true true true true.

(** Lowercase only, nothing excluded, nothing guaranteed. *)
Definition lower_only (L : Z) : Settings :=
  mkSettings L true false false false false false.

Definition all_off (L : Z) : Settings :=
  mkSettings L false false false false true true.

(** The source [rng_cycle] for its first [n] values, 1/2 from then on. *)
Definition rng_cut (n : nat) : RandomSource :=
  fun k => if (k <? n)%nat then rng_cycle k else U_half.

(** ** Vocabulary of the further statements *)

(** The pool size of a password that has every enabled class. *)
Definition pool_bound (options : Settings) : Z :=
  (if includeLower options then 26 else 0) +
  (if includeUpper options then 26 else 0) +
  (if includeNumbers options then 10 else 0) +
  (if includeSymbols options then 32 else 0).

(** The number of the four classes that have a character in [pw]. *)
Definition class_count (pw : jsstring) : nat :=
  ((if has_class LOWER pw then 1 else 0) +
   (if has_class UPPER pw then 1 else 0) +
   (if has_class NUMBERS pw then 1 else 0) +
   (if has_class SYMBOLS pw then 1 else 0))%nat.


(** * Properties *)

(** ** The random index *)

Lemma in_unit_spec (q : Q) : in_unit q = true -> (0 <= q /\ q < 1)%Q.
Proof.
  unfold in_unit. intros H. apply andb_true_iff in H. destruct H as [H0 H1].
  split.
  - now apply Qle_bool_iff.
  - apply Qnot_le_lt. intros Hle. apply Qle_bool_iff in Hle.
    rewrite Hle in H1. discriminate.
Qed.

Lemma random_index_range (n : nat) (rng : RandomSource) :
  (0 < n)%nat -> 0 <= fst (random_index n rng) < Z.of_nat n.
Proof.
  intros Hn.
  change (fst (random_index n rng))
    with (Qfloor (u_val (rng O) * inject_Z (Z.of_nat n))).
  destruct (in_unit_spec _ (u_ok (rng O))) as [H0 H1].
  set (u := u_val (rng O)) in *.
  assert (Hpos : (inject_Z 0 < inject_Z (Z.of_nat n))%Q).
  { rewrite <- Zlt_Qlt. lia. }
  change (inject_Z 0) with 0%Q in Hpos.
  split.
  - rewrite <- (Qfloor_Z 0). apply Qfloor_resp_le.
    apply Qmult_le_0_compat; [assumption | now apply Qlt_le_weak].
  - rewrite Zlt_Qlt.
    apply Qle_lt_trans with (y := (u * inject_Z (Z.of_nat n))%Q).
    + apply Qfloor_le.
    + rewrite <- (Qmult_1_l (inject_Z (Z.of_nat n))) at 2.
      apply Qmult_lt_compat_r; assumption.
Qed.

Lemma str_at_in (s : jsstring) (i : Z) :
  0 <= i < Z.of_nat (len s) -> exists c, str_at s i = Some c /\ In c s.
Proof.
  intros Hi. unfold str_at.
  destruct (Z.ltb_spec i 0) as [Hneg | _]; [lia |].
  destruct (nth_error s (Z.to_nat i)) as [c |] eqn:E.
  - exists c. split; [reflexivity |]. eapply nth_error_In; eassumption.
  - apply nth_error_None in E. lia.
Qed.

(** A drawn character is a character of the string it is drawn from. *)
Lemma draw_in (s : jsstring) (rng : RandomSource) :
  (0 < len s)%nat ->
  exists c, str_at s (fst (random_index (len s) rng)) = Some c /\ In c s.
Proof.
  intros Hs. apply str_at_in. now apply random_index_range.
Qed.

Lemma includes_In (s : jsstring) (c : char) :
  includes s c = true <-> In c s.
Proof.
  unfold includes. rewrite existsb_exists. split.
  - intros (x & Hx & E). apply N.eqb_eq in E. now subst.
  - intros H. exists c. split; [exact H | apply N.eqb_refl].
Qed.

(** ** Buffers of defined characters *)

Lemma from_weaken (P Q : char -> Prop) (a : list (option char)) :
  (forall c, P c -> Q c) -> Forall (from P) a -> Forall (from Q) a.
Proof.
  intros HPQ Ha. eapply Forall_impl; [| exact Ha].
  intros [c |]; simpl; auto.
Qed.

Lemma join_chars_cons (v : option char) (a : list (option char)) :
  join_chars (v :: a) =
  match v with Some c => [c] | None => [] end ++ join_chars a.
Proof. reflexivity. Qed.

Lemma join_chars_length (P : char -> Prop) (a : list (option char)) :
  Forall (from P) a -> len (join_chars a) = len a.
Proof.
  induction 1 as [| v a Hv _ IH]; [reflexivity |].
  rewrite join_chars_cons. destruct v as [c |]; [| contradiction].
  simpl. now rewrite IH.
Qed.

Lemma join_chars_Forall (P : char -> Prop) (a : list (option char)) :
  Forall (from P) a -> Forall P (join_chars a).
Proof.
  induction 1 as [| v a Hv _ IH]; [constructor |].
  rewrite join_chars_cons. destruct v as [c |]; [| contradiction].
  simpl. constructor; assumption.
Qed.

Lemma join_chars_In (c : char) (a : list (option char)) :
  In (Some c) a -> In c (join_chars a).
Proof.
  induction a as [| v a IH]; simpl; [tauto |].
  intros [-> | Hin]; rewrite join_chars_cons.
  - now left.
  - apply in_or_app. right. now apply IH.
Qed.

(** ** The guaranteed characters *)

Section GuaranteeEach.

Variable excl : bool.

Lemma guarantee_each_from (P : char -> Prop) (pools : list jsstring) :
  (forall pool c, In pool pools -> In c (poolStr_of excl pool) -> P c) ->
  forall init rng,
    Forall (from P) init ->
    Forall (from P) (fst (guarantee_each excl pools init rng)).
Proof.
  induction pools as [| pool rest IH]; intros HP init rng Hinit;
    cbn [guarantee_each].
  - assumption.
  - assert (HP' : forall q c, In q rest -> In c (poolStr_of excl q) -> P c).
    { intros q c Hq. apply HP. now right. }
    destruct (Nat.ltb_spec 0 (len (poolStr_of excl pool))) as [Hlen | _].
    + destruct (random_index (len (poolStr_of excl pool)) rng)
        as [idx rng'] eqn:E.
      apply IH; [assumption |].
      apply Forall_app. split; [assumption |].
      constructor; [| constructor].
      destruct (draw_in _ rng Hlen) as (c & Hc & Hin).
      rewrite E in Hc. cbn [fst] in Hc. rewrite Hc. simpl.
      apply (HP pool); [now left | assumption].
    + now apply IH.
Qed.

Lemma guarantee_each_keeps (pools : list jsstring) :
  forall init rng v,
    In v init -> In v (fst (guarantee_each excl pools init rng)).
Proof.
  induction pools as [| pool rest IH]; intros init rng v Hv;
    cbn [guarantee_each].
  - assumption.
  - destruct (0 <? len (poolStr_of excl pool))%nat.
    + destruct (random_index (len (poolStr_of excl pool)) rng) as [idx rng'].
      apply IH. apply in_or_app. now left.
    + now apply IH.
Qed.

(** Every pool with a non-empty alphabet leaves one of its characters. *)
Lemma guarantee_each_has (pools : list jsstring) :
  forall init rng pool,
    In pool pools ->
    (0 < len (poolStr_of excl pool))%nat ->
    exists c, In (Some c) (fst (guarantee_each excl pools init rng)) /\
              In c (poolStr_of excl pool).
Proof.
  induction pools as [| p rest IH]; intros init rng pool Hin Hlen.
  - destruct Hin.
  - cbn [guarantee_each]. destruct Hin as [-> | Hin].
    + destruct (Nat.ltb_spec 0 (len (poolStr_of excl pool))) as [_ | Hno];
        [| lia].
      destruct (random_index (len (poolStr_of excl pool)) rng)
        as [idx rng'] eqn:E.
      destruct (draw_in _ rng Hlen) as (c & Hc & Hc').
      rewrite E in Hc. cbn [fst] in Hc.
      exists c. split; [| assumption].
      apply guarantee_each_keeps. apply in_or_app. right.
      rewrite Hc. now left.
    + destruct (0 <? len (poolStr_of excl p))%nat.
      * destruct (random_index (len (poolStr_of excl p)) rng) as [idx rng'].
        now apply IH.
      * now apply IH.
Qed.

Lemma guarantee_each_length (pools : list jsstring) :
  forall init rng,
    (len (fst (guarantee_each excl pools init rng)) <= len init + len pools)%nat.
Proof.
  induction pools as [| pool rest IH]; intros init rng;
    cbn [guarantee_each].
  - simpl. lia.
  - destruct (0 <? len (poolStr_of excl pool))%nat.
    + destruct (random_index (len (poolStr_of excl pool)) rng) as [idx rng'].
      specialize (IH (init ++ [str_at (poolStr_of excl pool) idx]) rng').
      rewrite length_app in IH. simpl in *. lia.
    + specialize (IH init rng). simpl. lia.
Qed.

End GuaranteeEach.

(** ** The fill loop *)

Lemma fill_from (P : char -> Prop) (allowed : jsstring) (L : Z)
    (init : list (option char)) (rng : RandomSource) :
  (0 < len allowed)%nat ->
  (forall c, In c allowed -> P c) ->
  Forall (from P) init ->
  Forall (from P) (fst (fill allowed L init rng)).
Proof.
  intros Hlen HP.
  funelim (fill allowed L init rng); intros Hinit.
  - destruct (draw_in allowed rng Hlen) as (c & Hc & Hin).
    destruct (random_index (len allowed) rng) as [idx rng'].
    cbn [fst] in Hc.
    apply H; try assumption.
    apply Forall_app. split; [assumption |].
    constructor; [| constructor].
    rewrite Hc. simpl. now apply HP.
  - assumption.
Qed.

Lemma fill_keeps (allowed : jsstring) (L : Z)
    (init : list (option char)) (rng : RandomSource) (v : option char) :
  In v init -> In v (fst (fill allowed L init rng)).
Proof.
  funelim (fill allowed L init rng); intros Hv.
  - destruct (random_index (len allowed) rng) as [idx rng'].
    apply H. apply in_or_app. now left.
  - assumption.
Qed.

(** The loop stops at the requested length, or at once when the buffer is
    already that long. *)
Lemma fill_length (allowed : jsstring) (L : Z)
    (init : list (option char)) (rng : RandomSource) :
  Z.of_nat (len (fst (fill allowed L init rng))) = Z.max (Z.of_nat (len init)) L.
Proof.
  funelim (fill allowed L init rng).
  - destruct (random_index (len allowed) rng) as [idx rng'].
    rewrite H, length_app. simpl. lia.
  - simpl. lia.
Qed.

(** ** The shuffle *)

Lemma upd_Permutation (a : list (option char)) :
  forall i x v,
    nth_error a i = Some x -> Permutation (v :: a) (x :: upd a i v).
Proof.
  induction a as [| h t IH]; intros [| i] x v Hx; simpl in *; try discriminate.
  - injection Hx as ->. apply perm_swap.
  - apply perm_trans with (l' := h :: v :: t); [apply perm_swap |].
    apply perm_trans with (l' := h :: x :: upd t i v); [| apply perm_swap].
    apply perm_skip. now apply IH.
Qed.

Lemma nth_error_upd (a : list (option char)) :
  forall i j v,
    (i < len a)%nat ->
    nth_error (upd a i v) j = if (i =? j)%nat then Some v else nth_error a j.
Proof.
  induction a as [| h t IH]; intros [| i] [| j] v Hi; simpl in *;
    try lia; try reflexivity.
  apply IH. lia.
Qed.

Lemma arr_get_nth (a : list (option char)) (i : Z) :
  0 <= i < Z.of_nat (len a) ->
  nth_error a (Z.to_nat i) = Some (arr_get a i).
Proof.
  intros Hi. unfold arr_get.
  destruct (Z.ltb_spec i 0) as [Hneg | _]; [lia |].
  destruct (nth_error a (Z.to_nat i)) as [v |] eqn:E; [reflexivity |].
  apply nth_error_None in E. lia.
Qed.

Lemma arr_set_in_range (a : list (option char)) (i : Z) (v : option char) :
  0 <= i < Z.of_nat (len a) -> arr_set a i v = upd a (Z.to_nat i) v.
Proof.
  intros Hi. unfold arr_set.
  destruct (Z.ltb_spec i 0) as [Hneg | _]; [lia |].
  destruct (Nat.ltb_spec (Z.to_nat i) (len a)) as [_ | Hge]; [reflexivity | lia].
Qed.

(** One step of the shuffle exchanges two elements of the buffer. *)
Lemma swap_Permutation (a : list (option char)) (i j : Z) :
  0 <= i < Z.of_nat (len a) ->
  0 <= j < Z.of_nat (len a) ->
  Permutation a (arr_set (arr_set a i (arr_get a j)) j (arr_get a i)).
Proof.
  intros Hi Hj.
  pose proof (arr_get_nth a i Hi) as Gi.
  pose proof (arr_get_nth a j Hj) as Gj.
  set (ai := arr_get a i) in *. set (aj := arr_get a j) in *.
  rewrite (arr_set_in_range a i aj Hi).
  pose proof (upd_Permutation a _ _ aj Gi) as P1.
  assert (Hlen : len (upd a (Z.to_nat i) aj) = len a).
  { apply Permutation_length in P1. simpl in P1. lia. }
  rewrite arr_set_in_range by (rewrite Hlen; exact Hj).
  assert (G : nth_error (upd a (Z.to_nat i) aj) (Z.to_nat j) = Some aj).
  { rewrite nth_error_upd by lia.
    destruct (Z.to_nat i =? Z.to_nat j)%nat; [reflexivity | exact Gj]. }
  pose proof (upd_Permutation _ _ _ ai G) as P2.
  apply Permutation_cons_inv with (a := aj).
  eapply perm_trans; [exact P1 |]. exact P2.
Qed.

Lemma shuffle_from_Permutation (i : nat) :
  forall a rng,
    (i < len a)%nat -> Permutation a (fst (shuffle_from i a rng)).
Proof.
  induction i as [| i IH]; intros a rng Hi; cbn [shuffle_from].
  - apply Permutation_refl.
  - pose proof (random_index_range (S i + 1) rng ltac:(lia)) as Hj.
    destruct (random_index (S i + 1) rng) as [j rng']. cbn [fst] in Hj.
    assert (Hswap : Permutation a
              (arr_set (arr_set a (Z.of_nat (S i)) (arr_get a j)) j
                 (arr_get a (Z.of_nat (S i))))).
    { apply swap_Permutation; lia. }
    eapply perm_trans; [exact Hswap |].
    apply IH. apply Permutation_length in Hswap. lia.
Qed.

(** ** The result *)

Lemma slice0_all (a : list (option char)) (L : Z) :
  Z.of_nat (len a) <= L -> slice0 a L = a.
Proof.
  intros H. unfold slice0.
  destruct (Z.ltb_spec L 0) as [Hneg | _]; [lia |].
  apply firstn_all2. lia.
Qed.

Lemma slice0_length (a : list (option char)) (L : Z) :
  0 <= L <= Z.of_nat (len a) -> len (slice0 a L) = Z.to_nat L.
Proof.
  intros H. unfold slice0.
  destruct (Z.ltb_spec L 0) as [Hneg | _]; [lia |].
  rewrite length_firstn. lia.
Qed.

Lemma firstn_Forall (Q : option char -> Prop) (n : nat) (a : list (option char)) :
  Forall Q a -> Forall Q (firstn n a).
Proof.
  intros H. rewrite <- (firstn_skipn n a) in H.
  apply Forall_app in H. exact (proj1 H).
Qed.

Lemma slice0_Forall (Q : option char -> Prop) (a : list (option char)) (L : Z) :
  Forall Q a -> Forall Q (slice0 a L).
Proof.
  intros H. unfold slice0. destruct (L <? 0); now apply firstn_Forall.
Qed.

(** ** The pools and the allowed characters *)

Lemma any_class_pools (options : Settings) :
  any_class options = true <-> (0 < len (pools_of options))%nat.
Proof.
  unfold any_class, pools_of.
  destruct (includeLower options), (includeUpper options),
    (includeNumbers options), (includeSymbols options); simpl;
    split; intros H; try reflexivity; try lia; try discriminate.
Qed.

Lemma pools_of_classes (options : Settings) (pool : jsstring) :
  In pool (pools_of options) -> In pool CLASSES.
Proof.
  unfold pools_of, CLASSES.
  destruct (includeLower options), (includeUpper options),
    (includeNumbers options), (includeSymbols options); simpl; tauto.
Qed.

Lemma flag_pool (options : Settings) :
  (includeLower options = true -> In LOWER (pools_of options)) /\
  (includeUpper options = true -> In UPPER (pools_of options)) /\
  (includeNumbers options = true -> In NUMBERS (pools_of options)) /\
  (includeSymbols options = true -> In SYMBOLS (pools_of options)).
Proof.
  unfold pools_of.
  destruct (includeLower options), (includeUpper options),
    (includeNumbers options), (includeSymbols options);
    cbn [app In]; repeat split; intros H; try discriminate H; tauto.
Qed.

Lemma pools_of_length (options : Settings) :
  len (pools_of options) =
  ((if includeLower options then 1 else 0) +
   (if includeUpper options then 1 else 0) +
   (if includeNumbers options then 1 else 0) +
   (if includeSymbols options then 1 else 0))%nat.
Proof.
  unfold pools_of.
  destruct (includeLower options), (includeUpper options),
    (includeNumbers options), (includeSymbols options); reflexivity.
Qed.

Lemma enabled_count_pools (options : Settings) :
  len (pools_of options) = enabled_count options.
Proof. apply pools_of_length. Qed.

(** A pool of [pools] is the alphabet of a class whose flag is set. *)
Lemma pools_of_flag (options : Settings) (pool : jsstring) :
  In pool (pools_of options) ->
  (includeLower options = true /\ pool = LOWER) \/
  (includeUpper options = true /\ pool = UPPER) \/
  (includeNumbers options = true /\ pool = NUMBERS) \/
  (includeSymbols options = true /\ pool = SYMBOLS).
Proof.
  unfold pools_of.
  destruct (includeLower options), (includeUpper options),
    (includeNumbers options), (includeSymbols options);
    cbn [app In]; intros H;
    repeat (destruct H as [<- | H]; [tauto |]); destruct H.
Qed.

Lemma any_class_false (options : Settings) :
  any_class options = false ->
  includeLower options = false /\ includeUpper options = false /\
  includeNumbers options = false /\ includeSymbols options = false.
Proof.
  unfold any_class.
  destruct (includeLower options), (includeUpper options),
    (includeNumbers options), (includeSymbols options); simpl; auto;
    discriminate.
Qed.

(** No class alphabet is emptied by the similar-character filter. *)
Lemma poolStr_of_nonempty (excl : bool) (pool : jsstring) :
  In pool CLASSES -> (0 < len (poolStr_of excl pool))%nat.
Proof.
  unfold CLASSES. simpl.
  intros [<- | [<- | [<- | [<- | []]]]]; destruct excl; vm_compute; lia.
Qed.

Lemma poolStr_of_incl (excl : bool) (pool : jsstring) (c : char) :
  In c (poolStr_of excl pool) -> In c pool.
Proof.
  unfold poolStr_of. destruct excl; [| tauto].
  intros H. apply filter_In in H. tauto.
Qed.

Lemma poolStr_of_not_similar (pool : jsstring) (c : char) :
  In c (poolStr_of true pool) -> not_similar c = true.
Proof.
  unfold poolStr_of. intros H. apply filter_In in H. tauto.
Qed.

Lemma Set_add_fold_In (a : jsstring) :
  forall seen c, In c (fold_left Set_add a seen) -> In c seen \/ In c a.
Proof.
  induction a as [| h t IH]; intros seen c H; simpl in *.
  - now left.
  - apply IH in H. destruct H as [H | H]; [| tauto].
    unfold Set_add in H. destruct (includes seen h); [tauto |].
    apply in_app_or in H. simpl in H. intuition.
Qed.

Lemma Array_from_Set_In (a : jsstring) (c : char) :
  In c (Array_from_Set a) -> In c a.
Proof.
  intros H. apply Set_add_fold_In in H. destruct H as [[] | H]. exact H.
Qed.

Lemma allowed_filtered_nonempty (options : Settings) :
  any_class options = true -> (0 < len (allowed_filtered options))%nat.
Proof.
  unfold any_class, allowed_filtered, pools_of.
  destruct (includeLower options), (includeUpper options),
    (includeNumbers options), (includeSymbols options);
    intros H; try discriminate H;
    destruct (excludeSimilarChars options); vm_compute; lia.
Qed.

Lemma allowed_of_filtered (options : Settings) :
  any_class options = true -> allowed_of options = allowed_filtered options.
Proof.
  intros H. apply allowed_filtered_nonempty in H. unfold allowed_of.
  destruct (Nat.eqb_spec (len (allowed_filtered options)) 0); [lia | reflexivity].
Qed.

Lemma allowed_filtered_in_pools (options : Settings) (c : char) :
  In c (allowed_filtered options) ->
  exists pool, In pool (pools_of options) /\ In c pool.
Proof.
  unfold allowed_filtered, join. intros H.
  assert (Hc : In c (List.concat (pools_of options))).
  { destruct (excludeSimilarChars options); [| exact H].
    apply Array_from_Set_In in H. apply filter_In in H. tauto. }
  apply in_concat in Hc. destruct Hc as (pool & Hp & Hin). eauto.
Qed.

Lemma allowed_filtered_not_similar (options : Settings) (c : char) :
  excludeSimilarChars options = true ->
  In c (allowed_filtered options) -> not_similar c = true.
Proof.
  unfold allowed_filtered. intros -> H.
  apply Array_from_Set_In in H. apply filter_In in H. tauto.
Qed.

(** ** The shape of a run *)

(** Past the two early returns, the result is the first [length] elements
    of a rearrangement of the filled buffer. *)
Lemma generatePassword_run (options : Settings) (rng : RandomSource) :
  0 < length options ->
  any_class options = true ->
  exists buf,
    Permutation
      (fst (fill (allowed_of options) (length options)
              (fst (seeded options rng)) (snd (seeded options rng)))) buf /\
    fst (generatePassword options rng) =
    join_chars (slice0 buf (length options)).
Proof.
  intros HL Hany. apply any_class_pools in Hany.
  unfold generatePassword.
  destruct (Z.leb_spec (length options) 0) as [Hle | _]; [lia |].
  destruct (Nat.eqb_spec (len (pools_of options)) 0) as [He | _]; [lia |].
  fold (seeded options rng).
  destruct (seeded options rng) as [seeds rng1]. cbn [fst snd].
  pose proof (fill_length (allowed_of options) (length options) seeds rng1)
    as Hlen.
  destruct (fill (allowed_of options) (length options) seeds rng1)
    as [filled rng2]. cbn [fst] in *.
  pose proof (shuffle_from_Permutation (len filled - 1) filled rng2
                ltac:(lia)) as Hperm.
  destruct (shuffle_from (len filled - 1) filled rng2) as [buf rng3].
  exists buf. split; [exact Hperm | reflexivity].
Qed.

Lemma seeded_from (P : char -> Prop) (options : Settings) (rng : RandomSource) :
  (forall pool c,
      In pool (pools_of options) ->
      In c (poolStr_of (excludeSimilarChars options) pool) -> P c) ->
  Forall (from P) (fst (seeded options rng)).
Proof.
  intros HP. unfold seeded. destruct (guaranteeEachType options).
  - apply guarantee_each_from; [exact HP | constructor].
  - constructor.
Qed.

Lemma seeded_length (options : Settings) (rng : RandomSource) :
  (len (fst (seeded options rng)) <= len (pools_of options))%nat.
Proof.
  unfold seeded. destruct (guaranteeEachType options); [| simpl; lia].
  apply (guarantee_each_length (excludeSimilarChars options)
           (pools_of options) [] rng).
Qed.

(** Every character of the result satisfies what the drawn ones satisfy. *)
Lemma generatePassword_Forall (P : char -> Prop) (options : Settings)
    (rng : RandomSource) :
  0 < length options ->
  any_class options = true ->
  (forall pool c,
      In pool (pools_of options) ->
      In c (poolStr_of (excludeSimilarChars options) pool) -> P c) ->
  (forall c, In c (allowed_filtered options) -> P c) ->
  Forall P (fst (generatePassword options rng)).
Proof.
  intros HL Hany Hseed Hfill.
  destruct (generatePassword_run options rng HL Hany) as (buf & Hperm & ->).
  apply join_chars_Forall, slice0_Forall.
  eapply Permutation_Forall; [exact Hperm |].
  apply fill_from.
  - rewrite allowed_of_filtered by assumption.
    now apply allowed_filtered_nonempty.
  - rewrite allowed_of_filtered by assumption. exact Hfill.
  - now apply seeded_from.
Qed.

(** The two early returns, lines 93 and 101. *)
Lemma generatePassword_early_return (options : Settings) (rng : RandomSource) :
  length options <= 0 \/
  (includeLower options = false /\ includeUpper options = false /\
   includeNumbers options = false /\ includeSymbols options = false) ->
  generatePassword options rng = ([], rng).
Proof.
  intros [HL | (Hl & Hu & Hn & Hs)]; unfold generatePassword.
  - destruct (Z.leb_spec (length options) 0); [reflexivity | lia].
  - destruct (length options <=? 0); [reflexivity |].
    unfold pools_of. rewrite Hl, Hu, Hn, Hs. reflexivity.
Qed.

(** ** The generator: the stated properties *)

(** Past the early returns the result has the requested length. *)
Lemma generatePassword_run_length (options : Settings) (rng : RandomSource) :
  0 < length options ->
  any_class options = true ->
  Z.of_nat (len (fst (generatePassword options rng))) = length options.
Proof.
  intros HL Hany.
  destruct (generatePassword_run options rng HL Hany) as (buf & Hperm & ->).
  pose proof (fill_length (allowed_of options) (length options)
                (fst (seeded options rng)) (snd (seeded options rng))) as Hlen.
  assert (Hdef : Forall (from (fun _ => True)) buf).
  { eapply Permutation_Forall; [exact Hperm |].
    apply fill_from.
    - rewrite allowed_of_filtered by assumption.
      now apply allowed_filtered_nonempty.
    - trivial.
    - apply seeded_from. trivial. }
  apply Permutation_length in Hperm.
  rewrite (join_chars_length (fun _ => True))
    by (apply slice0_Forall; exact Hdef).
  rewrite slice0_length; lia.
Qed.

(** C1. For a length [L > 0] and at least one class flag set,
    [generatePassword] returns a string of exactly [L] characters, whatever
    the random source; this includes the settings where one character of
    each class is guaranteed and there are more classes than [L]. *)
Theorem generatePassword_length (options : Settings) (rng : RandomSource) :
  0 < length options ->
  any_class options = true ->
  Z.of_nat (len (fst (generatePassword options rng))) = length options.
Proof. exact (generatePassword_run_length options rng). Qed.

Lemma generatePassword_length_witness :
  0 < length (all_on 2) /\
  any_class (all_on 2) = true /\
  (Z.of_nat (len (pools_of (all_on 2))) > length (all_on 2)) /\
  Z.of_nat (len (fst (generatePassword (all_on 2) rng_cycle))) = 2.
Proof.
  split; [reflexivity |]. split; [reflexivity |]. split; [reflexivity |].
  apply (generatePassword_length (all_on 2) rng_cycle); reflexivity.
Defined.

(** With the guarantee on and room for it, every pool leaves in the result
    a character of the alphabet its guaranteed character is drawn from. *)
Lemma generatePassword_has_drawn (options : Settings) (rng : RandomSource) :
  guaranteeEachType options = true ->
  Z.of_nat (len (pools_of options)) <= length options ->
  forall pool,
    In pool (pools_of options) ->
    exists c, In c (fst (generatePassword options rng)) /\
              In c (poolStr_of (excludeSimilarChars options) pool).
Proof.
  intros Hg HC pool Hpool.
  assert (Hany : any_class options = true).
  { apply any_class_pools. destruct (pools_of options); [destruct Hpool |].
    simpl. lia. }
  assert (HL : 0 < length options).
  { apply any_class_pools in Hany. lia. }
  destruct (generatePassword_run options rng HL Hany) as (buf & Hperm & ->).
  pose proof (fill_length (allowed_of options) (length options)
                (fst (seeded options rng)) (snd (seeded options rng))) as Hlen.
  pose proof (seeded_length options rng) as Hseeds.
  assert (Hhas : exists c, In (Some c) (fst (seeded options rng)) /\
                   In c (poolStr_of (excludeSimilarChars options) pool)).
  { unfold seeded. rewrite Hg. apply guarantee_each_has; [exact Hpool |].
    apply poolStr_of_nonempty. eapply pools_of_classes; eassumption. }
  destruct Hhas as (c & Hc & Hin).
  exists c. split; [| exact Hin].
  apply join_chars_In.
  rewrite slice0_all by (apply Permutation_length in Hperm; lia).
  eapply Permutation_in; [exact Hperm |].
  now apply fill_keeps.
Qed.

Lemma has_drawn_filtered (options : Settings) (alphabet pw : jsstring) :
  (exists c, In c pw /\
             In c (poolStr_of (excludeSimilarChars options) alphabet)) ->
  has_filtered options alphabet pw.
Proof.
  intros (c & Hc & Hin). exists c. split; [exact Hc |]. split.
  - eapply poolStr_of_incl; eassumption.
  - intros Hex. rewrite Hex in Hin. apply poolStr_of_not_similar in Hin.
    unfold not_similar in Hin. apply negb_true_iff in Hin.
    intros Hs. apply includes_In in Hs. congruence.
Qed.

(** C2. With [guaranteeEachType] set and no more class flags set than the
    requested length, the result contains, for every class whose flag is
    set, a character of that class's alphabet, and one outside the
    similar-character set when [excludeSimilarChars] is set. *)
Theorem generatePassword_guarantee (options : Settings) (rng : RandomSource) :
  guaranteeEachType options = true ->
  Z.of_nat (enabled_count options) <= length options ->
  (includeLower options = true ->
   has_filtered options LOWER (fst (generatePassword options rng))) /\
  (includeUpper options = true ->
   has_filtered options UPPER (fst (generatePassword options rng))) /\
  (includeNumbers options = true ->
   has_filtered options NUMBERS (fst (generatePassword options rng))) /\
  (includeSymbols options = true ->
   has_filtered options SYMBOLS (fst (generatePassword options rng))).
Proof.
  intros Hg HC. rewrite <- enabled_count_pools in HC.
  destruct (flag_pool options) as (Pl & Pu & Pn & Ps).
  repeat split; intros Hflag; apply has_drawn_filtered;
    apply generatePassword_has_drawn; auto.
Qed.

Lemma generatePassword_guarantee_witness :
  guaranteeEachType (all_on 4) = true /\
  Z.of_nat (enabled_count (all_on 4)) <= length (all_on 4) /\
  includeNumbers (all_on 4) = true /\
  excludeSimilarChars (all_on 4) = true /\
  fst (generatePassword (all_on 4) rng_zero) = str "A2!a" /\
  has_filtered (all_on 4) NUMBERS (fst (generatePassword (all_on 4) rng_zero)).
Proof.
  split; [reflexivity |]. split; [cbn; lia |]. split; [reflexivity |].
  split; [reflexivity |]. split; [vm_compute; reflexivity |].
  apply (generatePassword_guarantee (all_on 4) rng_zero);
    [reflexivity | cbn; lia | reflexivity].
Defined.

(** C3. For a length [L <= 0], and for settings with the four class flags
    all false, [generatePassword] returns the empty string; it is a total
    function, and in both cases it makes no draw. *)
Theorem generatePassword_empty (options : Settings) (rng : RandomSource) :
  length options <= 0 \/
  (includeLower options = false /\ includeUpper options = false /\
   includeNumbers options = false /\ includeSymbols options = false) ->
  generatePassword options rng = ([], rng).
Proof. exact (generatePassword_early_return options rng). Qed.

Lemma generatePassword_empty_witness :
  (length (all_on 0) <= 0 /\
   generatePassword (all_on 0) rng_cycle = ([], rng_cycle)) /\
  (any_class (all_off 8) = false /\
   generatePassword (all_off 8) rng_cycle = ([], rng_cycle)).
Proof.
  split; split.
  - vm_compute. discriminate.
  - apply (generatePassword_empty (all_on 0) rng_cycle). left.
    vm_compute. discriminate.
  - reflexivity.
  - apply (generatePassword_empty (all_off 8) rng_cycle). right.
    repeat split; reflexivity.
Defined.

(** With [excludeSimilarChars] set, no character of the result is a similar
    character; nothing else is needed, the empty results included. *)
Lemma generatePassword_excludes (options : Settings) (rng : RandomSource) :
  excludeSimilarChars options = true ->
  Forall (fun c => includes SIMILAR c = false)
    (fst (generatePassword options rng)).
Proof.
  intros Hex.
  destruct (Z.leb_spec (length options) 0) as [HL | HL].
  { rewrite generatePassword_early_return by (now left). constructor. }
  destruct (any_class options) eqn:Hany.
  - apply generatePassword_Forall; try assumption.
    + intros pool c _ Hc. rewrite Hex in Hc.
      apply poolStr_of_not_similar in Hc.
      unfold not_similar in Hc. now apply negb_true_iff in Hc.
    + intros c Hc. apply allowed_filtered_not_similar in Hc; [| assumption].
      unfold not_similar in Hc. now apply negb_true_iff in Hc.
  - unfold any_class in Hany.
    repeat (apply orb_false_iff in Hany; destruct Hany as [Hany ?]).
    rewrite generatePassword_early_return by (right; auto). constructor.
Qed.

(** C4. With [excludeSimilarChars] set, a length [L > 0], at least one class
    enabled and every enabled class's similar-filtered alphabet non-empty,
    the result contains no character of the similar-character set: the
    fill pool and the guaranteed characters are both filtered. *)
Theorem generatePassword_no_similar (options : Settings) (rng : RandomSource) :
  excludeSimilarChars options = true ->
  0 < length options ->
  any_class options = true ->
  (forall pool, In pool (pools_of options) ->
                (0 < len (poolStr_of true pool))%nat) ->
  forall c, In c (fst (generatePassword options rng)) ->
            ~ In c SIMILAR.
Proof.
  intros Hex _ _ _ c Hc.
  pose proof (generatePassword_excludes options rng Hex) as H.
  rewrite Forall_forall in H. specialize (H c Hc).
  intros Hin. unfold includes in H.
  assert (Ht : existsb (N.eqb c) SIMILAR = true).
  { apply existsb_exists. exists c. split; [exact Hin | apply N.eqb_refl]. }
  congruence.
Qed.

Lemma generatePassword_no_similar_witness :
  excludeSimilarChars (all_on 6) = true /\
  0 < length (all_on 6) /\
  any_class (all_on 6) = true /\
  Forall (fun pool => (0 < len (poolStr_of true pool))%nat)
    (pools_of (all_on 6)) /\
  forall c, In c (fst (generatePassword (all_on 6) rng_cycle)) ->
            ~ In c SIMILAR.
Proof.
  split; [reflexivity |]. split; [reflexivity |]. split; [reflexivity |].
  assert (H : Forall (fun pool => (0 < len (poolStr_of true pool))%nat)
                (pools_of (all_on 6))).
  { repeat (apply Forall_cons; [vm_compute; lia |]). apply Forall_nil. }
  split; [exact H |].
  apply (generatePassword_no_similar (all_on 6) rng_cycle);
    try reflexivity.
  apply Forall_forall. exact H.
Defined.

Lemma in_pools_enabled (options : Settings) (c : char) :
  (exists pool, In pool (pools_of options) /\ In c pool) ->
  in_enabled_class options c.
Proof.
  intros (pool & Hp & Hc). unfold in_enabled_class.
  destruct (pools_of_flag options pool Hp)
    as [[F ->] | [[F ->] | [[F ->] | [F ->]]]]; tauto.
Qed.

(** Every character of a result past the early returns is in the alphabet
    of a class whose flag is set. *)
Lemma generatePassword_enabled (options : Settings) (rng : RandomSource) :
  0 < length options ->
  any_class options = true ->
  Forall (in_enabled_class options) (fst (generatePassword options rng)).
Proof.
  intros HL Hany. apply generatePassword_Forall; try assumption.
  - intros pool c Hp Hc. apply in_pools_enabled. exists pool.
    split; [exact Hp |]. eapply poolStr_of_incl; eassumption.
  - intros c Hc. apply in_pools_enabled.
    now apply allowed_filtered_in_pools.
Qed.

(** C9. For a length [L > 0] and at least one class flag set, every
    character of the result belongs to the alphabet of a class whose flag
    is set; with only [includeLower] set and length 12, the result has 12
    characters, each of them in a-z. *)
Theorem generatePassword_alphabet (options : Settings) (rng : RandomSource) :
  0 < length options ->
  any_class options = true ->
  Forall (in_enabled_class options) (fst (generatePassword options rng)) /\
  len (fst (generatePassword (lower_only 12) rng)) = 12%nat /\
  Forall (fun c => in_range 97 122 c = true)
    (fst (generatePassword (lower_only 12) rng)).
Proof.
  intros HL Hany. split; [now apply generatePassword_enabled |]. split.
  - apply Nat2Z.inj. rewrite generatePassword_run_length; reflexivity.
  - eapply Forall_impl;
      [| apply (generatePassword_enabled (lower_only 12)); reflexivity].
    intros c [[_ Hc] | [[F _] | [[F _] | [F _]]]]; try discriminate F.
    revert c Hc. apply Forall_forall.
    repeat (apply Forall_cons; [vm_compute; reflexivity |]). apply Forall_nil.
Qed.

Lemma generatePassword_alphabet_witness :
  fst (generatePassword (mkSettings 6 false true false false false false)
         rng_cycle) = str "RARNAN" /\
  Forall (in_enabled_class (mkSettings 6 false true false false false false))
    (fst (generatePassword (mkSettings 6 false true false false false false)
            rng_cycle)).
Proof.
  split; [vm_compute; reflexivity |].
  apply (generatePassword_alphabet
           (mkSettings 6 false true false false false false) rng_cycle);
    reflexivity.
Defined.

(** C10. The fallback assignment of line 112 is never executed: each of the
    four class alphabets has a character outside the similar-character set,
    so with at least one class enabled the filtered [allowed] is not
    empty, and without one the function has returned before. *)
Theorem fallback_unreachable (options : Settings) :
  Forall (fun pool => existsb not_similar pool = true) CLASSES /\
  (any_class options = true -> (0 < len (allowed_filtered options))%nat) /\
  fallback_taken options = false.
Proof.
  split; [| split].
  - unfold CLASSES.
    repeat (apply Forall_cons; [vm_compute; reflexivity |]). apply Forall_nil.
  - apply allowed_filtered_nonempty.
  - unfold fallback_taken.
    destruct (any_class options) eqn:Hany.
    + apply allowed_filtered_nonempty in Hany.
      destruct (Nat.eqb_spec (len (allowed_filtered options)) 0); [lia |].
      apply andb_false_r.
    + assert (Hp : ~ (0 < len (pools_of options))%nat).
      { intros H. apply any_class_pools in H. congruence. }
      destruct (Nat.eqb_spec (len (pools_of options)) 0); [| lia].
      simpl. rewrite andb_false_r. reflexivity.
Qed.

Lemma fallback_unreachable_witness :
  any_class (all_on 6) = true /\
  (0 < len (allowed_filtered (all_on 6)))%nat /\
  fallback_taken (all_on 6) = false.
Proof.
  split; [reflexivity |].
  split.
  - apply (proj1 (proj2 (fallback_unreachable (all_on 6)))). reflexivity.
  - apply (proj2 (proj2 (fallback_unreachable (all_on 6)))).
Defined.

(** ** The estimator *)

(** The patterns of lines 149-152 test for the generator's four alphabets. *)


Lemma range_includes (lo hi : N) (k : nat) (alphabet : jsstring) :
  (hi + 1 = lo + N.of_nat k)%N ->
  (forall n, (n < k)%nat -> includes alphabet (lo + N.of_nat n)%N = true) ->
  Forall (fun c => in_range lo hi c = true) alphabet ->
  forall c, in_range lo hi c = includes alphabet c.
Proof.
  intros Hhi Hto Hfrom c.
  destruct (in_range lo hi c) eqn:E.
  - unfold in_range in E. apply andb_true_iff in E. destruct E as [E1 E2].
    apply N.leb_le in E1, E2.
    replace c with (lo + N.of_nat (N.to_nat (c - lo)))%N
      by (rewrite N2Nat.id; lia).
    symmetry. apply Hto. lia.
  - destruct (includes alphabet c) eqn:I; [| reflexivity].
    apply includes_In in I. rewrite Forall_forall in Hfrom.
    apply Hfrom in I. congruence.
Qed.

Ltac range_alphabet k :=
  apply (range_includes _ _ k);
  [ reflexivity
  | intros n Hn; repeat (destruct n as [| n]; [reflexivity |]); lia
  | repeat (apply Forall_cons; [reflexivity |]); apply Forall_nil ].

Lemma lower_range (c : char) : in_range 97 122 c = includes LOWER c.
Proof. revert c. range_alphabet 26%nat. Qed.

Lemma upper_range (c : char) : in_range 65 90 c = includes UPPER c.
Proof. revert c. range_alphabet 26%nat. Qed.

Lemma digit_range (c : char) : in_range 48 57 c = includes NUMBERS c.
Proof. revert c. range_alphabet 10%nat. Qed.

Lemma SYMBOL_CLASS_SYMBOLS : SYMBOL_CLASS = SYMBOLS.
Proof. reflexivity. Qed.

Lemma existsb_ext_fun (f g : char -> bool) (l : jsstring) :
  (forall c, f c = g c) -> existsb f l = existsb g l.
Proof.
  intros H. induction l as [| h t IH]; simpl; [reflexivity |].
  now rewrite H, IH.
Qed.

Lemma poolSize_of_classes (pw : jsstring) :
  poolSize_of pw =
  (if has_class LOWER pw then 26 else 0) +
  (if has_class UPPER pw then 26 else 0) +
  (if has_class NUMBERS pw then 10 else 0) +
  (if has_class SYMBOLS pw then 32 else 0).
Proof.
  unfold poolSize_of, has_class, test_lower, test_upper, test_digit,
    test_symbol.
  rewrite (existsb_ext_fun _ _ pw lower_range),
    (existsb_ext_fun _ _ pw upper_range),
    (existsb_ext_fun _ _ pw digit_range), SYMBOL_CLASS_SYMBOLS.
  destruct (existsb (includes LOWER) pw), (existsb (includes UPPER) pw),
    (existsb (includes NUMBERS) pw), (existsb (includes SYMBOLS) pw);
    reflexivity.
Qed.

Lemma poolSize_of_nonneg (pw : jsstring) : 0 <= poolSize_of pw <= 94.
Proof.
  rewrite poolSize_of_classes.
  destruct (has_class LOWER pw), (has_class UPPER pw),
    (has_class NUMBERS pw), (has_class SYMBOLS pw); lia.
Qed.

(** The integer comparison decides the real one. *)

Lemma ln_2_pos : (0 < ln 2)%R.
Proof. rewrite <- ln_1. apply ln_increasing; lra. Qed.

Lemma pow_log2_lt (p : Z) (n t : nat) :
  0 < p ->
  2 ^ Z.of_nat t < p ^ Z.of_nat n <-> (INR t < INR n * log2 (IZR p))%R.
Proof.
  intros Hp.
  assert (HpR : (0 < IZR p)%R) by (apply IZR_lt; exact Hp).
  pose proof ln_2_pos as H2.
  assert (Hinv : (0 < / ln 2)%R) by (now apply Rinv_0_lt_compat).
  assert (En : (INR n * log2 (IZR p) = ln (IZR p ^ n) * / ln 2)%R).
  { unfold log2. rewrite ln_pow by assumption. field. lra. }
  assert (Et : (INR t = ln (2 ^ t) * / ln 2)%R).
  { rewrite ln_pow by lra. field. lra. }
  rewrite En, Et.
  assert (Pn : (0 < IZR p ^ n)%R) by (now apply pow_lt).
  assert (Pt : (0 < 2 ^ t)%R) by (apply pow_lt; lra).
  split.
  - intros H. apply Rmult_lt_compat_r; [exact Hinv |].
    apply ln_increasing; [exact Pt |].
    apply IZR_lt in H. rewrite <- !pow_IZR in H. exact H.
  - intros H. apply Rmult_lt_reg_r in H; [| exact Hinv].
    apply ln_lt_inv in H; [| exact Pt | exact Pn].
    apply lt_IZR. rewrite <- !pow_IZR. exact H.
Qed.

Lemma bits_exceed_spec (pw : jsstring) (t : Z) :
  0 <= t -> bits_exceed pw t = true <-> (IZR t < bits_of pw)%R.
Proof.
  intros Ht. unfold bits_exceed, bits_of.
  destruct (Z.ltb_spec 0 (poolSize_of pw)) as [Hp | Hp].
  - rewrite Z.ltb_lt. rewrite <- (Z2Nat.id t Ht) at 1 2.
    rewrite <- INR_IZR_INZ. now apply pow_log2_lt.
  - split.
    + intros H. apply Z.ltb_lt in H. lia.
    + intros H. apply lt_IZR in H. lia.
Qed.

Lemma bits_exceed_dec (pw : jsstring) (t : Z) (A : Type) (x y : A) :
  0 <= t ->
  (if bits_exceed pw t then x else y) =
  (if Rlt_dec (IZR t) (bits_of pw) then x else y).
Proof.
  intros Ht. pose proof (bits_exceed_spec pw t Ht) as S.
  destruct (bits_exceed pw t); destruct (Rlt_dec (IZR t) (bits_of pw));
    try reflexivity.
  - exfalso. tauto.
  - destruct S as [_ S]. specialize (S r). discriminate.
Qed.

Lemma estimateStrength_score (pw : jsstring) :
  pw <> [] ->
  score (estimateStrength (JsString pw)) = score_of_bits (bits_of pw).
Proof.
  intros Hne. destruct pw as [| c pw']; [contradiction |].
  unfold estimateStrength. cbn [truthy negb string_of score].
  unfold score_of_bits.
  rewrite !bits_exceed_dec by lia. reflexivity.
Qed.

(** The estimate is a function of the length and of the classes present. *)
Lemma poolSize_of_ext (pw1 pw2 : jsstring) :
  (forall alphabet, has_class alphabet pw1 = has_class alphabet pw2) ->
  poolSize_of pw1 = poolSize_of pw2.
Proof.
  intros H. rewrite !poolSize_of_classes, !H. reflexivity.
Qed.

Lemma estimateStrength_ext (pw1 pw2 : jsstring) :
  len pw1 = len pw2 ->
  poolSize_of pw1 = poolSize_of pw2 ->
  estimateStrength (JsString pw1) = estimateStrength (JsString pw2).
Proof.
  intros Hlen Hpool.
  destruct pw1 as [| c1 t1], pw2 as [| c2 t2]; try discriminate Hlen;
    [reflexivity |].
  unfold estimateStrength. cbn [truthy negb string_of].
  unfold bits_exceed. rewrite Hpool, Hlen. reflexivity.
Qed.

(** ** The estimator: the stated properties *)

(** C5. For a non-empty password, the pool size is 26 for a lowercase letter
    present, plus 26 for an uppercase letter, plus 10 for a digit, plus 32
    for a character of the symbol set; the bits are the length times the
    base-2 logarithm of the pool size (0 for pool size 0); and the score is
    4, 3, 2, 1 or 0 as the bits exceed 80, 60, 40, 20 or none of them.
    Twelve times the letter a scores 2, Okay, and aA1!aA1!aA1! scores 3,
    Strong. *)
Theorem estimateStrength_entropy (pw : jsstring) :
  pw <> [] ->
  poolSize_of pw =
    (if has_class LOWER pw then 26 else 0) +
    (if has_class UPPER pw then 26 else 0) +
    (if has_class NUMBERS pw then 10 else 0) +
    (if has_class SYMBOLS pw then 32 else 0) /\
  bits_of pw =
    (if poolSize_of pw =? 0 then 0%R
     else (INR (len pw) * log2 (IZR (poolSize_of pw)))%R) /\
  score (estimateStrength (JsString pw)) = score_of_bits (bits_of pw) /\
  estimateStrength (JsString (str "aaaaaaaaaaaa")) =
    mkResult 2 (Some (str "Okay")) /\
  estimateStrength (JsString (str "aA1!aA1!aA1!")) =
    mkResult 3 (Some (str "Strong")).
Proof.
  intros Hne. split; [apply poolSize_of_classes |]. split.
  - unfold bits_of. pose proof (poolSize_of_nonneg pw) as Hp.
    destruct (Z.ltb_spec 0 (poolSize_of pw));
      destruct (Z.eqb_spec (poolSize_of pw) 0); try reflexivity; lia.
  - split; [now apply estimateStrength_score |].
    split; vm_compute; reflexivity.
Qed.

Lemma estimateStrength_entropy_witness :
  str "aA1!aA1!aA1!" <> [] /\
  poolSize_of (str "aA1!aA1!aA1!") = 94 /\
  score_of_bits (bits_of (str "aA1!aA1!aA1!")) = 3.
Proof.
  assert (Hne : str "aA1!aA1!aA1!" <> []) by discriminate.
  pose proof (estimateStrength_entropy (str "aA1!aA1!aA1!") Hne)
    as (Hpool & _ & Hscore & _).
  split; [exact Hne |]. split.
  - rewrite Hpool. reflexivity.
  - rewrite <- Hscore. reflexivity.
Defined.

(** C6. On the empty string, and on an absent argument, [estimateStrength]
    returns score 0 with the label Too short. *)
Theorem estimateStrength_falsy (pw : jsvalue) :
  truthy pw = false ->
  estimateStrength pw = mkResult 0 (Some (str "Too short")).
Proof.
  intros H. unfold estimateStrength. rewrite H. reflexivity.
Qed.

Lemma estimateStrength_falsy_witness :
  estimateStrength (JsString []) = mkResult 0 (Some (str "Too short")) /\
  estimateStrength JsUndefined = mkResult 0 (Some (str "Too short")) /\
  estimateStrength JsNull = mkResult 0 (Some (str "Too short")).
Proof.
  split; [| split].
  - apply (estimateStrength_falsy (JsString [])). reflexivity.
  - apply (estimateStrength_falsy JsUndefined). reflexivity.
  - apply (estimateStrength_falsy JsNull). reflexivity.
Defined.

(** C7. [estimateStrength] returns a result for every string: the score is
    one of 0 to 4, and the label is Too short for the empty string and the
    entry of [labels] at the score otherwise.  A non-empty string with no
    character of the four classes has pool size 0 and is scored 0. *)
Theorem estimateStrength_total (pw : jsstring) :
  let r := estimateStrength (JsString pw) in
  0 <= score r <= 4 /\
  label r =
    (if (len pw =? 0)%nat then Some (str "Too short")
     else nth_error labels (Z.to_nat (score r))) /\
  (exists l, label r = Some l) /\
  (pw <> [] ->
   Forall (fun c => includes (LOWER ++ UPPER ++ NUMBERS ++ SYMBOLS) c = false) pw ->
   poolSize_of pw = 0 /\ r = mkResult 0 (Some (str "Very weak"))).
Proof.
  cbv zeta. destruct pw as [| c pw'].
  { split; [cbn; lia |]. split; [reflexivity |].
    split; [eexists; reflexivity |]. intros H. contradiction. }
  set (pw := c :: pw').
  assert (Hout :
    Forall (fun c => includes (LOWER ++ UPPER ++ NUMBERS ++ SYMBOLS) c = false) pw ->
    poolSize_of pw = 0).
  { intros Hno. rewrite poolSize_of_classes.
    assert (Hc : forall alphabet,
               incl alphabet (LOWER ++ UPPER ++ NUMBERS ++ SYMBOLS) ->
               has_class alphabet pw = false).
    { intros alphabet Hincl. unfold has_class.
      destruct (existsb (includes alphabet) pw) eqn:E; [| reflexivity].
      apply existsb_exists in E. destruct E as (x & Hx & Hin).
      apply includes_In in Hin. apply Hincl in Hin.
      apply includes_In in Hin.
      rewrite Forall_forall in Hno. rewrite (Hno x Hx) in Hin. discriminate. }
    rewrite !Hc; try reflexivity;
      intros x Hx; rewrite !in_app_iff; tauto. }
  unfold estimateStrength. cbn [truthy negb string_of]. fold pw.
  split; [| split; [| split]].
  - destruct (bits_exceed pw 80), (bits_exceed pw 60), (bits_exceed pw 40),
      (bits_exceed pw 20); cbn; lia.
  - destruct (bits_exceed pw 80), (bits_exceed pw 60), (bits_exceed pw 40),
      (bits_exceed pw 20); reflexivity.
  - destruct (bits_exceed pw 80), (bits_exceed pw 60), (bits_exceed pw 40),
      (bits_exceed pw 20); eexists; reflexivity.
  - intros _ Hno. specialize (Hout Hno). split; [exact Hout |].
    unfold bits_exceed. rewrite Hout. reflexivity.
Qed.

Lemma estimateStrength_total_witness :
  str " ~ " <> [] /\
  poolSize_of (str " ~ ") = 0 /\
  estimateStrength (JsString (str " ~ ")) = mkResult 0 (Some (str "Very weak")).
Proof.
  split; [discriminate |].
  apply (proj2 (proj2 (proj2 (estimateStrength_total (str " ~ "))))).
  - discriminate.
  - repeat (apply Forall_cons; [reflexivity |]). apply Forall_nil.
Defined.

(** The generator, by contrast, depends on the random source: the same
    settings give different passwords on different sources. *)
Lemma generatePassword_depends_on_source :
  fst (generatePassword (lower_only 12) rng_zero) = str "aaaaaaaaaaaa" /\
  fst (generatePassword (lower_only 12) rng_cycle) = str "aararnnarnrn" /\
  estimateStrength (JsString (fst (generatePassword (lower_only 12) rng_zero))) =
  estimateStrength (JsString (fst (generatePassword (lower_only 12) rng_cycle))).
Proof. repeat split; vm_compute; reflexivity. Qed.



(** * Further properties of the generator *)

(** ** The draws of each loop *)

Lemma random_index_draw (n : nat) (rng : RandomSource) :
  random_index n rng = (draw_index n (rng O), after 1 rng).
Proof. reflexivity. Qed.

Lemma draw_index_range (n : nat) (u : U01) :
  (0 < n)%nat -> 0 <= draw_index n u < Z.of_nat n.
Proof.
  intros Hn. exact (random_index_range n (fun _ => u) Hn).
Qed.

Lemma agree_weaken (n m : nat) (r1 r2 : RandomSource) :
  (m <= n)%nat -> agree n r1 r2 -> agree m r1 r2.
Proof. intros Hm H k Hk. apply H. lia. Qed.

Lemma agree_after (n m : nat) (r1 r2 : RandomSource) :
  agree (m + n) r1 r2 -> agree n (after m r1) (after m r2).
Proof. intros H k Hk. unfold after. apply H. lia. Qed.

Section GuaranteeDraws.

Variable excl : bool.

Lemma guarantee_each_after (pools : list jsstring) :
  (forall pool, In pool pools -> (0 < len (poolStr_of excl pool))%nat) ->
  forall init rng,
    snd (guarantee_each excl pools init rng) = after (len pools) rng.
Proof.
  induction pools as [| pool rest IH]; intros Hne init rng;
    cbn [guarantee_each].
  - reflexivity.
  - destruct (Nat.ltb_spec 0 (len (poolStr_of excl pool))) as [_ | Hno].
    + rewrite random_index_draw.
      rewrite IH by (intros q Hq; apply Hne; now right).
      reflexivity.
    + specialize (Hne pool (or_introl eq_refl)). lia.
Qed.

Lemma guarantee_each_exact_length (pools : list jsstring) :
  (forall pool, In pool pools -> (0 < len (poolStr_of excl pool))%nat) ->
  forall init rng,
    len (fst (guarantee_each excl pools init rng)) = (len init + len pools)%nat.
Proof.
  induction pools as [| pool rest IH]; intros Hne init rng;
    cbn [guarantee_each].
  - simpl. lia.
  - destruct (Nat.ltb_spec 0 (len (poolStr_of excl pool))) as [_ | Hno].
    + rewrite random_index_draw.
      rewrite IH by (intros q Hq; apply Hne; now right).
      rewrite length_app. simpl. lia.
    + specialize (Hne pool (or_introl eq_refl)). lia.
Qed.

Lemma guarantee_each_agree (pools : list jsstring) :
  forall init r1 r2,
    agree (len pools) r1 r2 ->
    guarantee_each excl pools init r1 =
    (fst (guarantee_each excl pools init r2),
     snd (guarantee_each excl pools init r1)).
Proof.
  induction pools as [| pool rest IH]; intros init r1 r2 Hag;
    cbn [guarantee_each].
  - reflexivity.
  - destruct (0 <? len (poolStr_of excl pool))%nat.
    + rewrite !random_index_draw.
      rewrite <- (Hag O) by (simpl; lia).
      apply IH. apply (agree_after (len rest) 1). exact Hag.
    + apply IH. apply agree_weaken with (n := len (pool :: rest));
        [simpl; lia | exact Hag].
Qed.

End GuaranteeDraws.

(** The fill loop in closed form: the [k]-th added character is the one the
    [k]-th draw selects. *)
Lemma fill_closed (allowed : jsstring) (L : Z)
    (init : list (option char)) (rng : RandomSource) :
  fill allowed L init rng =
  (init ++
   List.map (fun k => str_at allowed (draw_index (len allowed) (rng k)))
     (seq 0 (Z.to_nat (L - Z.of_nat (len init)))),
   after (Z.to_nat (L - Z.of_nat (len init))) rng).
Proof.
  funelim (fill allowed L init rng).
  - rewrite random_index_draw. cbv iota beta.
    rewrite H. rewrite length_app. cbn [len].
    replace (Z.to_nat (length0 - Z.of_nat (len passwordChars)))
      with (S (Z.to_nat (length0 - Z.of_nat (len passwordChars + 1)))) by lia.
    cbn [seq List.map]. rewrite <- seq_shift, map_map, <- app_assoc.
    reflexivity.
  - replace (Z.to_nat (length0 - Z.of_nat (len passwordChars))) with O by lia.
    cbn [seq List.map]. rewrite app_nil_r. reflexivity.
Qed.

Lemma fill_agree (allowed : jsstring) (L : Z)
    (init : list (option char)) (r1 r2 : RandomSource) :
  agree (Z.to_nat (L - Z.of_nat (len init))) r1 r2 ->
  fst (fill allowed L init r1) = fst (fill allowed L init r2).
Proof.
  intros Hag. rewrite !fill_closed. cbn [fst]. f_equal.
  apply map_ext_in. intros k Hk. apply in_seq in Hk.
  rewrite Hag by lia. reflexivity.
Qed.

Lemma shuffle_from_after (i : nat) :
  forall a rng, snd (shuffle_from i a rng) = after i rng.
Proof.
  induction i as [| i IH]; intros a rng; cbn [shuffle_from].
  - reflexivity.
  - rewrite random_index_draw. cbv iota beta. rewrite IH. reflexivity.
Qed.

Lemma shuffle_from_agree (i : nat) :
  forall a r1 r2,
    agree i r1 r2 ->
    fst (shuffle_from i a r1) = fst (shuffle_from i a r2).
Proof.
  induction i as [| i IH]; intros a r1 r2 Hag; cbn [shuffle_from].
  - reflexivity.
  - rewrite !random_index_draw. cbv iota beta.
    rewrite <- (Hag O) by lia.
    apply IH. apply (agree_after i 1). exact Hag.
Qed.

(** ** The draws of a whole run *)

Lemma pools_of_nonempty_filtered (options : Settings) (excl : bool) :
  forall pool, In pool (pools_of options) ->
               (0 < len (poolStr_of excl pool))%nat.
Proof.
  intros pool Hp. apply poolStr_of_nonempty.
  eapply pools_of_classes; eassumption.
Qed.

Lemma seeded_after (options : Settings) (rng : RandomSource) :
  snd (seeded options rng) = after (seed_count options) rng.
Proof.
  unfold seeded, seed_count. destruct (guaranteeEachType options).
  - apply guarantee_each_after. apply pools_of_nonempty_filtered.
  - reflexivity.
Qed.

Lemma seeded_exact_length (options : Settings) (rng : RandomSource) :
  len (fst (seeded options rng)) = seed_count options.
Proof.
  unfold seeded, seed_count. destruct (guaranteeEachType options).
  - rewrite guarantee_each_exact_length
      by apply pools_of_nonempty_filtered.
    reflexivity.
  - reflexivity.
Qed.

Lemma seeded_agree (options : Settings) (r1 r2 : RandomSource) :
  agree (seed_count options) r1 r2 ->
  fst (seeded options r1) = fst (seeded options r2).
Proof.
  unfold seeded, seed_count. destruct (guaranteeEachType options).
  - intros Hag.
    rewrite (guarantee_each_agree _ _ _ r1 r2 Hag). reflexivity.
  - reflexivity.
Qed.

(** The run past the early returns, with every source written as a shift
    of the initial one. *)
Lemma generatePassword_unfold (options : Settings) (rng : RandomSource) :
  0 < length options ->
  any_class options = true ->
  let s := seed_count options in
  let n := buffer_length options in
  let filled :=
    fst (fill (allowed_of options) (length options)
           (fst (seeded options rng)) (after s rng)) in
  len filled = n /\
  generatePassword options rng =
  (join_chars
     (slice0 (fst (shuffle_from (n - 1) filled (after (n - s) (after s rng))))
        (length options)),
   after (n - 1) (after (n - s) (after s rng))).
Proof.
  intros HL Hany s n filled.
  pose proof (seeded_exact_length options rng) as Hs. fold s in Hs.
  assert (Hm : Z.to_nat (length options - Z.of_nat (len (fst (seeded options rng))))
               = (n - s)%nat).
  { rewrite Hs. unfold n, buffer_length. fold s. lia. }
  assert (Hn : len filled = n).
  { unfold filled. rewrite fill_closed. cbn [fst].
    rewrite length_app, length_map, length_seq, Hm, Hs.
    unfold n, buffer_length. fold s. lia. }
  split; [exact Hn |].
  apply any_class_pools in Hany.
  unfold generatePassword.
  destruct (Z.leb_spec (length options) 0) as [Hle | _]; [lia |].
  destruct (Nat.eqb_spec (len (pools_of options)) 0) as [He | _]; [lia |].
  fold (seeded options rng).
  rewrite (surjective_pairing (seeded options rng)), seeded_after. fold s.
  rewrite (surjective_pairing
             (fill (allowed_of options) (length options)
                (fst (seeded options rng)) (after s rng))).
  fold filled.
  replace (snd (fill (allowed_of options) (length options)
                  (fst (seeded options rng)) (after s rng)))
    with (after (n - s) (after s rng))
    by (rewrite fill_closed; cbn [snd]; now rewrite Hm).
  rewrite Hn.
  rewrite (surjective_pairing
             (shuffle_from (n - 1) filled (after (n - s) (after s rng)))).
  rewrite shuffle_from_after. reflexivity.
Qed.

Lemma draws_early (options : Settings) :
  length options <= 0 \/ any_class options = false -> draws options = O.
Proof.
  unfold draws. intros [H | H].
  - destruct (Z.leb_spec (length options) 0); [reflexivity | lia].
  - rewrite H. simpl. now rewrite orb_true_r.
Qed.

Lemma draws_run (options : Settings) :
  0 < length options -> any_class options = true ->
  draws options =
  (buffer_length options + (buffer_length options - 1))%nat /\
  (seed_count options <= buffer_length options)%nat /\
  (0 < buffer_length options)%nat.
Proof.
  intros HL Hany. unfold draws. rewrite Hany.
  destruct (Z.leb_spec (length options) 0); [lia |].
  simpl. unfold buffer_length. lia.
Qed.


(** X1. A call of [generatePassword] makes exactly [draws options] calls of
    [Math.random()]: none on the early returns, and otherwise one for each
    element of the buffer and one for each of its positions but the
    first; the source it leaves is the given one without these values. *)
Theorem generatePassword_draws (options : Settings) (rng : RandomSource)
    (k : nat) :
  snd (generatePassword options rng) k = rng (draws options + k)%nat.
Proof.
  destruct (Z.leb_spec (length options) 0) as [HL | HL].
  { rewrite generatePassword_early_return by (now left).
    rewrite draws_early by (now left). reflexivity. }
  destruct (any_class options) eqn:Hany.
  - destruct (generatePassword_unfold options rng HL Hany) as [_ ->].
    destruct (draws_run options HL Hany) as (-> & Hs & Hn).
    cbn [snd]. unfold after. f_equal. lia.
  - rewrite generatePassword_early_return
      by (right; now apply any_class_false).
    rewrite draws_early by (now right). reflexivity.
Qed.

(** X2. The password depends on the random source only through its first
    [draws options] values: two sources that agree on them give the same
    password. *)
Theorem generatePassword_prefix (options : Settings) (r1 r2 : RandomSource) :
  agree (draws options) r1 r2 ->
  fst (generatePassword options r1) = fst (generatePassword options r2).
Proof.
  intros Hag.
  destruct (Z.leb_spec (length options) 0) as [HL | HL].
  { rewrite !generatePassword_early_return by (now left). reflexivity. }
  destruct (any_class options) eqn:Hany.
  - destruct (generatePassword_unfold options r1 HL Hany) as [_ ->].
    destruct (generatePassword_unfold options r2 HL Hany) as [_ ->].
    destruct (draws_run options HL Hany) as (Hd & Hs & Hn).
    rewrite Hd in Hag. cbn [fst].
    set (s := seed_count options) in *.
    set (n := buffer_length options) in *.
    assert (H1 : fst (seeded options r1) = fst (seeded options r2)).
    { apply seeded_agree. fold s. eapply agree_weaken; [| exact Hag]. lia. }
    assert (H2 : fst (fill (allowed_of options) (length options)
                        (fst (seeded options r1)) (after s r1)) =
                 fst (fill (allowed_of options) (length options)
                        (fst (seeded options r2)) (after s r2))).
    { rewrite H1. apply fill_agree.
      rewrite seeded_exact_length. fold s.
      apply agree_after. eapply agree_weaken; [| exact Hag].
      unfold n, buffer_length. fold s. lia. }
    rewrite H2. do 2 f_equal.
    apply shuffle_from_agree.
    apply agree_after, agree_after. eapply agree_weaken; [| exact Hag]. lia.
  - rewrite !generatePassword_early_return
      by (right; now apply any_class_false).
    reflexivity.
Qed.

Lemma generatePassword_prefix_witness :
  agree (draws (all_on 6)) rng_cycle (rng_cut 11) /\
  rng_cycle 11%nat <> rng_cut 11 11%nat /\
  fst (generatePassword (all_on 6) rng_cycle) =
  fst (generatePassword (all_on 6) (rng_cut 11)).
Proof.
  assert (H : agree (draws (all_on 6)) rng_cycle (rng_cut 11)).
  { intros k Hk. change (draws (all_on 6)) with 11%nat in Hk.
    unfold rng_cut. destruct (Nat.ltb_spec k 11); [reflexivity | lia]. }
  split; [exact H |]. split; [discriminate |].
  exact (generatePassword_prefix (all_on 6) rng_cycle (rng_cut 11) H).
Defined.

(** ** The allowed characters *)







(** ** Classes of characters *)

(** A character belongs to at most one of the four classes. *)
Lemma at_most_one_class (c : char) :
  ((if includes LOWER c then 1 else 0) +
   (if includes UPPER c then 1 else 0) +
   (if includes NUMBERS c then 1 else 0) +
   (if includes SYMBOLS c then 1 else 0) <= 1)%nat.
Proof.
  destruct (includes SYMBOLS c) eqn:E.
  - apply includes_In in E.
    repeat (destruct E as [<- | E]; [vm_compute; lia |]). destruct E.
  - rewrite <- lower_range, <- upper_range, <- digit_range.
    unfold in_range.
    destruct (N.leb_spec 97 c), (N.leb_spec c 122), (N.leb_spec 65 c),
      (N.leb_spec c 90), (N.leb_spec 48 c), (N.leb_spec c 57);
      cbn; lia.
Qed.

Lemma has_class_cons (alphabet : jsstring) (c : char) (pw : jsstring) :
  has_class alphabet (c :: pw) = includes alphabet c || has_class alphabet pw.
Proof. reflexivity. Qed.

Lemma has_class_In (alphabet pw : jsstring) :
  has_class alphabet pw = true <-> exists c, In c pw /\ In c alphabet.
Proof.
  unfold has_class. rewrite existsb_exists. split.
  - intros (c & Hc & Hi). apply includes_In in Hi. eauto.
  - intros (c & Hc & Hi). exists c. split; [exact Hc |].
    now apply includes_In.
Qed.

(** A string has characters of at most as many classes as its length. *)
Lemma class_count_le (pw : jsstring) : (class_count pw <= len pw)%nat.
Proof.
  induction pw as [| c pw IH]; [cbn; lia |].
  unfold class_count in *. rewrite !has_class_cons.
  pose proof (at_most_one_class c) as H1. cbn [len].
  destruct (includes LOWER c), (includes UPPER c), (includes NUMBERS c),
    (includes SYMBOLS c); cbn [orb] in *; try lia;
    destruct (has_class LOWER pw), (has_class UPPER pw),
      (has_class NUMBERS pw), (has_class SYMBOLS pw); lia.
Qed.

(** An enabled pool that has a character of a class is that class's pool,
    so the class is enabled. *)
Lemma pool_flag (options : Settings) (q : jsstring) (c : char) :
  In q (pools_of options) -> In c q ->
  (includes LOWER c = true -> includeLower options = true) /\
  (includes UPPER c = true -> includeUpper options = true) /\
  (includes NUMBERS c = true -> includeNumbers options = true) /\
  (includes SYMBOLS c = true -> includeSymbols options = true).
Proof.
  intros Hq Hc. pose proof (at_most_one_class c) as A.
  unfold pools_of in Hq.
  destruct (includeLower options), (includeUpper options),
    (includeNumbers options), (includeSymbols options);
    cbn [app In] in Hq;
    repeat (destruct Hq as [<- | Hq]);
    try destruct Hq;
    apply includes_In in Hc; rewrite Hc in A;
    (repeat split; intros H; try reflexivity; rewrite H in A;
     destruct (includes LOWER c), (includes UPPER c),
       (includes NUMBERS c), (includes SYMBOLS c); cbn in A; lia).
Qed.



(** Every character of every result is in an enabled class's alphabet. *)
Lemma generatePassword_in_pools (options : Settings) (rng : RandomSource) :
  Forall (fun c => exists pool, In pool (pools_of options) /\ In c pool)
    (fst (generatePassword options rng)).
Proof.
  destruct (Z.leb_spec (length options) 0) as [HL | HL].
  { rewrite generatePassword_early_return by (now left). constructor. }
  destruct (any_class options) eqn:Hany.
  - apply generatePassword_Forall; try assumption.
    + intros pool c Hp Hc. exists pool. split; [exact Hp |].
      eapply poolStr_of_incl; eassumption.
    + intros c Hc. now apply allowed_filtered_in_pools.
  - rewrite generatePassword_early_return
      by (right; now apply any_class_false).
    constructor.
Qed.

(** A class with a character in the result is an enabled class. *)
Lemma generatePassword_classes_enabled (options : Settings)
    (rng : RandomSource) :
  let r := fst (generatePassword options rng) in
  (has_class LOWER r = true -> includeLower options = true) /\
  (has_class UPPER r = true -> includeUpper options = true) /\
  (has_class NUMBERS r = true -> includeNumbers options = true) /\
  (has_class SYMBOLS r = true -> includeSymbols options = true).
Proof.
  intros r. pose proof (generatePassword_in_pools options rng) as Hin.
  fold r in Hin. rewrite Forall_forall in Hin.
  repeat split; intros H; apply has_class_In in H;
    destruct H as (c & Hc & Hcl);
    destruct (Hin c Hc) as (q & Hq & Hcq);
    destruct (pool_flag options q c Hq Hcq) as (Fl & Fu & Fn & Fs);
    apply includes_In in Hcl; auto.
Qed.

(** With the guarantee on and room for it, every enabled class has a
    character in the result. *)
Lemma generatePassword_has_each (options : Settings) (rng : RandomSource) :
  guaranteeEachType options = true ->
  Z.of_nat (len (pools_of options)) <= length options ->
  forall pool,
    In pool (pools_of options) ->
    has_class pool (fst (generatePassword options rng)) = true.
Proof.
  intros Hg HC pool Hpool.
  assert (Hany : any_class options = true).
  { apply any_class_pools. destruct (pools_of options); [destruct Hpool |].
    simpl. lia. }
  assert (HL : 0 < length options).
  { apply any_class_pools in Hany. lia. }
  destruct (generatePassword_run options rng HL Hany) as (buf & Hperm & ->).
  pose proof (fill_length (allowed_of options) (length options)
                (fst (seeded options rng)) (snd (seeded options rng))) as Hlen.
  pose proof (seeded_length options rng) as Hseeds.
  assert (Hhas : exists c, In (Some c) (fst (seeded options rng)) /\
                   In c (poolStr_of (excludeSimilarChars options) pool)).
  { unfold seeded. rewrite Hg. apply guarantee_each_has; [exact Hpool |].
    now apply pools_of_nonempty_filtered with (options := options). }
  destruct Hhas as (c & Hc & Hin).
  apply has_class_In. exists c. split.
  - apply join_chars_In.
    rewrite slice0_all by (apply Permutation_length in Hperm; lia).
    eapply Permutation_in; [exact Hperm |].
    now apply fill_keeps.
  - eapply poolStr_of_incl; eassumption.
Qed.

Lemma forallb_false_witness (f : jsstring -> bool) (l : list jsstring) :
  forallb f l = false -> exists x, In x l /\ f x = false.
Proof.
  induction l as [| h t IH]; cbn [forallb]; [discriminate |].
  destruct (f h) eqn:E; cbn [andb]; intros H.
  - destruct (IH H) as (x & Hx & Hf). exists x. split; [now right | exact Hf].
  - exists h. split; [now left | exact E].
Qed.

(** X5. When the requested length is smaller than the number of enabled
    classes, some enabled class has no character in the result, whatever
    the random source; with [guaranteeEachType] set, the truncation of
    line 140 has dropped its guaranteed character. *)
Theorem generatePassword_drops_class (options : Settings)
    (rng : RandomSource) :
  0 < length options ->
  length options < Z.of_nat (len (pools_of options)) ->
  exists pool,
    In pool (pools_of options) /\
    forall c, In c (fst (generatePassword options rng)) -> ~ In c pool.
Proof.
  intros HL HC.
  assert (Hany : any_class options = true) by (apply any_class_pools; lia).
  pose proof (generatePassword_run_length options rng HL Hany) as Hlen.
  set (r := fst (generatePassword options rng)) in *.
  destruct (forallb (fun pool => has_class pool r) (pools_of options)) eqn:E.
  - exfalso. rewrite forallb_forall in E.
    destruct (flag_pool options) as (Pl & Pu & Pn & Ps).
    pose proof (class_count_le r) as Hcount. unfold class_count in Hcount.
    rewrite pools_of_length in HC.
    assert (Hl : includeLower options = true -> has_class LOWER r = true)
      by (intros H; apply E; auto).
    assert (Hu : includeUpper options = true -> has_class UPPER r = true)
      by (intros H; apply E; auto).
    assert (Hn : includeNumbers options = true -> has_class NUMBERS r = true)
      by (intros H; apply E; auto).
    assert (Hs : includeSymbols options = true -> has_class SYMBOLS r = true)
      by (intros H; apply E; auto).
    destruct (includeLower options); [rewrite Hl in Hcount by reflexivity |];
      (destruct (includeUpper options);
         [rewrite Hu in Hcount by reflexivity |]);
      (destruct (includeNumbers options);
         [rewrite Hn in Hcount by reflexivity |]);
      (destruct (includeSymbols options);
         [rewrite Hs in Hcount by reflexivity |]);
      destruct (has_class LOWER r), (has_class UPPER r),
        (has_class NUMBERS r), (has_class SYMBOLS r); cbn in *; lia.
  - apply forallb_false_witness in E. destruct E as (pool & Hp & Hf).
    exists pool. split; [exact Hp |].
    intros c Hc Hin.
    assert (Ht : has_class pool r = true)
      by (apply has_class_In; eauto).
    congruence.
Qed.

Lemma generatePassword_drops_class_witness :
  guaranteeEachType (all_on 2) = true /\
  exists pool,
    In pool (pools_of (all_on 2)) /\
    forall c, In c (fst (generatePassword (all_on 2) rng_cycle)) ->
              ~ In c pool.
Proof.
  split; [reflexivity |].
  apply (generatePassword_drops_class (all_on 2) rng_cycle); reflexivity.
Defined.

(** The pool size of a generated password against the enabled classes. *)
Lemma generated_poolSize_facts (options : Settings) (rng : RandomSource) :
  poolSize_of (fst (generatePassword options rng)) <= pool_bound options /\
  (guaranteeEachType options = true ->
   Z.of_nat (len (pools_of options)) <= length options ->
   poolSize_of (fst (generatePassword options rng)) = pool_bound options).
Proof.
  pose proof (generatePassword_classes_enabled options rng)
    as (Fl & Fu & Fn & Fs).
  cbv zeta in Fl, Fu, Fn, Fs.
  set (r := fst (generatePassword options rng)) in *.
  rewrite poolSize_of_classes. unfold pool_bound. split.
  - destruct (has_class LOWER r), (has_class UPPER r),
      (has_class NUMBERS r), (has_class SYMBOLS r);
      try rewrite Fl by reflexivity; try rewrite Fu by reflexivity;
      try rewrite Fn by reflexivity; try rewrite Fs by reflexivity;
      destruct (includeLower options), (includeUpper options),
        (includeNumbers options), (includeSymbols options); lia.
  - intros Hg HC.
    pose proof (generatePassword_has_each options rng Hg HC) as Hhas.
    fold r in Hhas. destruct (flag_pool options) as (Pl & Pu & Pn & Ps).
    destruct (includeLower options);
      [rewrite (Hhas LOWER) by auto
      | destruct (has_class LOWER r); [discriminate Fl; reflexivity |]];
    (destruct (includeUpper options);
      [rewrite (Hhas UPPER) by auto
      | destruct (has_class UPPER r); [discriminate Fu; reflexivity |]]);
    (destruct (includeNumbers options);
      [rewrite (Hhas NUMBERS) by auto
      | destruct (has_class NUMBERS r); [discriminate Fn; reflexivity |]]);
    (destruct (includeSymbols options);
      [rewrite (Hhas SYMBOLS) by auto
      | destruct (has_class SYMBOLS r); [discriminate Fs; reflexivity |]]);
    reflexivity.
Qed.

(** X6. The pool size that [estimateStrength] finds in a generated password
    is at most the sum of the enabled classes' contributions, and it is
    exactly that sum when [guaranteeEachType] is set and the length is not
    smaller than the number of enabled classes. *)
Theorem generated_poolSize (options : Settings) (rng : RandomSource) :
  poolSize_of (fst (generatePassword options rng)) <= pool_bound options /\
  (guaranteeEachType options = true ->
   Z.of_nat (len (pools_of options)) <= length options ->
   poolSize_of (fst (generatePassword options rng)) = pool_bound options).
Proof. exact (generated_poolSize_facts options rng). Qed.

Lemma generated_poolSize_witness :
  guaranteeEachType (all_on 6) = true /\
  Z.of_nat (len (pools_of (all_on 6))) <= length (all_on 6) /\
  poolSize_of (fst (generatePassword (all_on 6) rng_cycle)) = 94.
Proof.
  split; [reflexivity |]. split; [cbn; lia |].
  apply (proj2 (generated_poolSize (all_on 6) rng_cycle));
    [reflexivity | cbn; lia].
Defined.

(** * Further properties of the estimator *)



Lemma has_class_Permutation (alphabet pw1 pw2 : jsstring) :
  Permutation pw1 pw2 -> has_class alphabet pw1 = has_class alphabet pw2.
Proof.
  intros HP.
  destruct (has_class alphabet pw1) eqn:E1, (has_class alphabet pw2) eqn:E2;
    try reflexivity.
  - apply has_class_In in E1. destruct E1 as (c & Hc & Hi).
    assert (H2 : has_class alphabet pw2 = true).
    { apply has_class_In. exists c. split; [| exact Hi].
      eapply Permutation_in; eassumption. }
    congruence.
  - apply has_class_In in E2. destruct E2 as (c & Hc & Hi).
    assert (H1 : has_class alphabet pw1 = true).
    { apply has_class_In. exists c. split; [| exact Hi].
      eapply Permutation_in; [apply Permutation_sym |]; eassumption. }
    congruence.
Qed.

(** X7. The estimate does not depend on the order of the characters: two
    passwords that are rearrangements of each other get the same score and
    label. *)
Theorem estimateStrength_Permutation (pw1 pw2 : jsstring) :
  Permutation pw1 pw2 ->
  estimateStrength (JsString pw1) = estimateStrength (JsString pw2).
Proof.
  intros HP. apply estimateStrength_ext.
  - now apply Permutation_length.
  - apply poolSize_of_ext. intros alphabet.
    now apply has_class_Permutation.
Qed.

Lemma estimateStrength_Permutation_witness :
  Permutation (str "aB3") (str "3aB") /\
  estimateStrength (JsString (str "aB3")) =
  estimateStrength (JsString (str "3aB")).
Proof.
  assert (H : Permutation (str "aB3") (str "3aB")).
  { change (Permutation ([97; 66] ++ [51])%N ([51] ++ [97; 66])%N).
    apply Permutation_app_comm. }
  split; [exact H |].
  exact (estimateStrength_Permutation (str "aB3") (str "3aB") H).
Defined.

Lemma has_class_app (alphabet pw more : jsstring) :
  has_class alphabet pw = true -> has_class alphabet (pw ++ more) = true.
Proof.
  unfold has_class. rewrite existsb_app. intros ->. reflexivity.
Qed.

Lemma poolSize_of_app (pw more : jsstring) :
  poolSize_of pw <= poolSize_of (pw ++ more).
Proof.
  rewrite !poolSize_of_classes.
  pose proof (has_class_app LOWER pw more) as Hl.
  pose proof (has_class_app UPPER pw more) as Hu.
  pose proof (has_class_app NUMBERS pw more) as Hn.
  pose proof (has_class_app SYMBOLS pw more) as Hs.
  destruct (has_class LOWER pw); [rewrite Hl by reflexivity |];
    (destruct (has_class UPPER pw); [rewrite Hu by reflexivity |]);
    (destruct (has_class NUMBERS pw); [rewrite Hn by reflexivity |]);
    (destruct (has_class SYMBOLS pw); [rewrite Hs by reflexivity |]);
    destruct (has_class LOWER (pw ++ more)), (has_class UPPER (pw ++ more)),
      (has_class NUMBERS (pw ++ more)), (has_class SYMBOLS (pw ++ more));
    lia.
Qed.

Lemma bits_exceed_mono (pw1 pw2 : jsstring) (t : Z) :
  0 <= t ->
  (len pw1 <= len pw2)%nat ->
  poolSize_of pw1 <= poolSize_of pw2 ->
  bits_exceed pw1 t = true -> bits_exceed pw2 t = true.
Proof.
  intros Ht Hlen Hpool. unfold bits_exceed.
  destruct (Z.ltb_spec 0 (poolSize_of pw1)) as [H1 | H1].
  - destruct (Z.ltb_spec 0 (poolSize_of pw2)) as [_ | H2]; [| lia].
    rewrite !Z.ltb_lt. intros H.
    eapply Z.lt_le_trans; [exact H |].
    transitivity (poolSize_of pw2 ^ Z.of_nat (len pw1)).
    + apply Z.pow_le_mono_l. lia.
    + apply Z.pow_le_mono_r; lia.
  - intros H. apply Z.ltb_lt in H. lia.
Qed.

Lemma score_mono (pw1 pw2 : jsstring) :
  (len pw1 <= len pw2)%nat ->
  poolSize_of pw1 <= poolSize_of pw2 ->
  score (estimateStrength (JsString pw1)) <=
  score (estimateStrength (JsString pw2)).
Proof.
  intros Hlen Hpool.
  assert (Hlow : forall pw, 0 <= score (estimateStrength (JsString pw))).
  { intros [| c t]; [cbn; lia |].
    unfold estimateStrength. cbn [truthy negb string_of score].
    destruct (bits_exceed (c :: t) 80), (bits_exceed (c :: t) 60),
      (bits_exceed (c :: t) 40), (bits_exceed (c :: t) 20); lia. }
  destruct pw1 as [| c1 t1]; [apply Hlow |].
  destruct pw2 as [| c2 t2]; [cbn in Hlen; lia |].
  unfold estimateStrength. cbn [truthy negb string_of score].
  pose proof (bits_exceed_mono (c1 :: t1) (c2 :: t2) 80
                ltac:(lia) Hlen Hpool) as M80.
  pose proof (bits_exceed_mono (c1 :: t1) (c2 :: t2) 60
                ltac:(lia) Hlen Hpool) as M60.
  pose proof (bits_exceed_mono (c1 :: t1) (c2 :: t2) 40
                ltac:(lia) Hlen Hpool) as M40.
  pose proof (bits_exceed_mono (c1 :: t1) (c2 :: t2) 20
                ltac:(lia) Hlen Hpool) as M20.
  destruct (bits_exceed (c1 :: t1) 80); [rewrite M80 by reflexivity; lia |].
  destruct (bits_exceed (c1 :: t1) 60);
    [rewrite M60 by reflexivity; destruct (bits_exceed (c2 :: t2) 80); lia |].
  destruct (bits_exceed (c1 :: t1) 40);
    [rewrite M40 by reflexivity;
     destruct (bits_exceed (c2 :: t2) 80), (bits_exceed (c2 :: t2) 60); lia |].
  destruct (bits_exceed (c1 :: t1) 20);
    [rewrite M20 by reflexivity;
     destruct (bits_exceed (c2 :: t2) 80), (bits_exceed (c2 :: t2) 60),
       (bits_exceed (c2 :: t2) 40); lia |].
  destruct (bits_exceed (c2 :: t2) 80), (bits_exceed (c2 :: t2) 60),
    (bits_exceed (c2 :: t2) 40), (bits_exceed (c2 :: t2) 20); lia.
Qed.

(** X8. Adding characters to a password never lowers its score. *)
Theorem estimateStrength_app (pw more : jsstring) :
  score (estimateStrength (JsString pw)) <=
  score (estimateStrength (JsString (pw ++ more))).
Proof.
  apply score_mono.
  - rewrite length_app. lia.
  - apply poolSize_of_app.
Qed.

Lemma bits_exceed_short (pw : jsstring) (t n : Z) :
  0 <= t ->
  Z.of_nat (len pw) <= n ->
  94 ^ n <= 2 ^ t ->
  bits_exceed pw t = false.
Proof.
  intros Ht Hn Hpow. unfold bits_exceed.
  pose proof (poolSize_of_nonneg pw) as Hp.
  destruct (Z.ltb_spec 0 (poolSize_of pw)) as [H1 | H1].
  - apply Z.ltb_ge.
    transitivity (94 ^ Z.of_nat (len pw)).
    + apply Z.pow_le_mono_l. lia.
    + transitivity (94 ^ n); [apply Z.pow_le_mono_r; lia | exact Hpow].
  - apply Z.ltb_ge. exact Ht.
Qed.

Lemma poolSize_of_min (pw : jsstring) :
  0 < poolSize_of pw -> 10 <= poolSize_of pw.
Proof.
  rewrite poolSize_of_classes.
  destruct (has_class LOWER pw), (has_class UPPER pw),
    (has_class NUMBERS pw), (has_class SYMBOLS pw); lia.
Qed.

(** X9. The thresholds in terms of the length: a password of fewer than 4
    characters has score 0; a password of fewer than 13 characters has a
    score below 4; and a password of at least 25 characters with a
    character of one of the four classes has score 4. *)
Theorem estimateStrength_length_bounds (pw : jsstring) :
  ((len pw < 4)%nat -> score (estimateStrength (JsString pw)) = 0) /\
  ((len pw < 13)%nat -> score (estimateStrength (JsString pw)) < 4) /\
  ((25 <= len pw)%nat -> 0 < poolSize_of pw ->
   estimateStrength (JsString pw) = mkResult 4 (Some (str "Very strong"))).
Proof.
  destruct pw as [| c t].
  { repeat split; try reflexivity; cbn; intros; lia. }
  set (pw := c :: t).
  unfold estimateStrength. cbn [truthy negb string_of]. fold pw.
  split; [| split].
  - intros Hlen.
    rewrite (bits_exceed_short pw 80 3), (bits_exceed_short pw 60 3),
      (bits_exceed_short pw 40 3), (bits_exceed_short pw 20 3);
      try reflexivity; try lia; vm_compute; discriminate.
  - intros Hlen.
    rewrite (bits_exceed_short pw 80 12) by (try lia; vm_compute; discriminate).
    destruct (bits_exceed pw 60), (bits_exceed pw 40), (bits_exceed pw 20);
      cbn; lia.
  - intros Hlen Hpool.
    assert (H80 : bits_exceed pw 80 = true).
    { unfold bits_exceed. apply poolSize_of_min in Hpool.
      destruct (Z.ltb_spec 0 (poolSize_of pw)) as [_ | H]; [| lia].
      apply Z.ltb_lt.
      apply Z.lt_le_trans with (m := 10 ^ 25); [reflexivity |].
      transitivity (poolSize_of pw ^ 25).
      - apply Z.pow_le_mono_l. lia.
      - apply Z.pow_le_mono_r; lia. }
    rewrite H80. reflexivity.
Qed.

Lemma estimateStrength_length_bounds_witness :
  score (estimateStrength (JsString (str "a!9"))) = 0 /\
  score (estimateStrength (JsString (str "aA1!aA1!aA1!"))) < 4 /\
  estimateStrength (JsString (str "0000000000000000000000000")) =
    mkResult 4 (Some (str "Very strong")).
Proof.
  split; [| split].
  - apply (proj1 (estimateStrength_length_bounds (str "a!9"))). cbn. lia.
  - apply (proj1 (proj2 (estimateStrength_length_bounds (str "aA1!aA1!aA1!")))).
    cbn. lia.
  - apply (proj2 (proj2 (estimateStrength_length_bounds
                           (str "0000000000000000000000000")))).
    + cbn. lia.
    + reflexivity.
Defined.

(** * generateAndShow *)

Lemma generatePassword_length_fixed (options : Settings) (r1 r2 : RandomSource) :
  len (fst (generatePassword options r1)) =
  len (fst (generatePassword options r2)).
Proof.
  destruct (Z.leb_spec (length options) 0) as [HL | HL].
  { rewrite !generatePassword_early_return by (now left). reflexivity. }
  destruct (any_class options) eqn:Hany.
  - apply Nat2Z.inj. now rewrite !generatePassword_run_length.
  - rewrite !generatePassword_early_return
      by (right; now apply any_class_false).
    reflexivity.
Qed.

Lemma generateAndShow_view (opts : Settings) (rng : RandomSource) :
  let pw := fst (generatePassword opts rng) in
  let st := estimateStrength (JsString pw) in
  fst (generateAndShow opts rng) =
  mkView pw
    (number_string (score st * 100 / 4) ++ str "%")
    (if score st <=? 1 then str "linear-gradient(90deg, #ff6b6b, #ffb86b)"
     else if score st =? 2 then str "linear-gradient(90deg, #ffd166, #fef08a)"
     else if score st =? 3 then str "linear-gradient(90deg, #9be15d, #00e3ae)"
     else str "linear-gradient(90deg, #7afcff, #9b7bff)")
    (if truthy (JsString pw)
     then template_string (label st) ++ str " (" ++
          number_string (score st * 100 / 4) ++ str "%)"
     else [226; 8364; 8221]%N).
Proof.
  unfold generateAndShow.
  destruct (generatePassword opts rng) as [pw rng']. reflexivity.
Qed.

(** X10. With a length of 0 or less, or with no class enabled,
    [generateAndShow] clears the page: the password field is empty, the
    strength bar has width 0% and the first background, the strength text
    is the placeholder, and no random value is drawn. *)
Theorem generateAndShow_empty (opts : Settings) (rng : RandomSource) :
  length opts <= 0 \/ any_class opts = false ->
  generateAndShow opts rng =
  (mkView [] (str "0%") (str "linear-gradient(90deg, #ff6b6b, #ffb86b)")
     [226; 8364; 8221]%N,
   rng).
Proof.
  intros H. unfold generateAndShow.
  rewrite generatePassword_early_return; [reflexivity |].
  destruct H as [H | H]; [now left | right; now apply any_class_false].
Qed.

Lemma generateAndShow_empty_witness :
  generateAndShow (all_off 8) rng_cycle =
  (mkView [] (str "0%") (str "linear-gradient(90deg, #ff6b6b, #ffb86b)")
     [226; 8364; 8221]%N,
   rng_cycle).
Proof.
  apply (generateAndShow_empty (all_off 8) rng_cycle). right. reflexivity.
Defined.

(** X11. With [guaranteeEachType] set and a length not smaller than the
    number of enabled classes, what [generateAndShow] shows about the
    strength (bar width, bar background, strength text) is the same for
    every random source: it depends on the settings alone. *)
Theorem generateAndShow_strength_fixed (opts : Settings)
    (r1 r2 : RandomSource) :
  guaranteeEachType opts = true ->
  Z.of_nat (len (pools_of opts)) <= length opts ->
  let v1 := fst (generateAndShow opts r1) in
  let v2 := fst (generateAndShow opts r2) in
  strengthFill_width v1 = strengthFill_width v2 /\
  strengthFill_background v1 = strengthFill_background v2 /\
  strengthText_textContent v1 = strengthText_textContent v2.
Proof.
  intros Hg HC v1 v2. unfold v1, v2.
  rewrite !generateAndShow_view. cbv zeta.
  cbn [strengthFill_width strengthFill_background strengthText_textContent].
  pose proof (generatePassword_length_fixed opts r1 r2) as Hlen.
  assert (Hst : estimateStrength (JsString (fst (generatePassword opts r1))) =
                estimateStrength (JsString (fst (generatePassword opts r2)))).
  { apply estimateStrength_ext; [exact Hlen |].
    rewrite (proj2 (generated_poolSize_facts opts r1) Hg HC).
    rewrite (proj2 (generated_poolSize_facts opts r2) Hg HC).
    reflexivity. }
  assert (Htr : truthy (JsString (fst (generatePassword opts r1))) =
                truthy (JsString (fst (generatePassword opts r2)))).
  { destruct (fst (generatePassword opts r1)),
      (fst (generatePassword opts r2)); try discriminate Hlen; reflexivity. }
  rewrite Hst, Htr. repeat split; reflexivity.
Qed.

Lemma generateAndShow_strength_fixed_witness :
  fst (generatePassword (all_on 6) rng_cycle) <>
  fst (generatePassword (all_on 6) rng_zero) /\
  strengthFill_width (fst (generateAndShow (all_on 6) rng_cycle)) =
  strengthFill_width (fst (generateAndShow (all_on 6) rng_zero)) /\
  strengthFill_background (fst (generateAndShow (all_on 6) rng_cycle)) =
  strengthFill_background (fst (generateAndShow (all_on 6) rng_zero)) /\
  strengthText_textContent (fst (generateAndShow (all_on 6) rng_cycle)) =
  strengthText_textContent (fst (generateAndShow (all_on 6) rng_zero)).
Proof.
  split; [vm_compute; discriminate |].
  apply (generateAndShow_strength_fixed (all_on 6) rng_cycle rng_zero);
    [reflexivity | cbn; lia].
Defined.

(** X12. With the four classes enabled, [guaranteeEachType] set and a
    length of 13 or more, [generateAndShow] always shows the highest
    strength: a bar of width 100% with the last background and the text
    Very strong (100%). *)
Theorem generateAndShow_very_strong (opts : Settings) (rng : RandomSource) :
  includeLower opts = true -> includeUpper opts = true ->
  includeNumbers opts = true -> includeSymbols opts = true ->
  guaranteeEachType opts = true ->
  13 <= length opts ->
  let v := fst (generateAndShow opts rng) in
  strengthFill_width v = str "100%" /\
  strengthFill_background v = str "linear-gradient(90deg, #7afcff, #9b7bff)" /\
  strengthText_textContent v = str "Very strong (100%)".
Proof.
  intros Hl Hu Hn Hs Hg HL v. unfold v.
  rewrite generateAndShow_view. cbv zeta.
  cbn [strengthFill_width strengthFill_background strengthText_textContent].
  assert (Hany : any_class opts = true).
  { unfold any_class. now rewrite Hl. }
  assert (HC : Z.of_nat (len (pools_of opts)) <= length opts).
  { rewrite pools_of_length, Hl, Hu, Hn, Hs. cbn. lia. }
  pose proof (generatePassword_run_length opts rng ltac:(lia) Hany) as Hlen.
  pose proof (proj2 (generated_poolSize_facts opts rng) Hg HC) as Hpool.
  unfold pool_bound in Hpool. rewrite Hl, Hu, Hn, Hs in Hpool.
  set (pw := fst (generatePassword opts rng)) in *.
  assert (Hst : estimateStrength (JsString pw) =
                mkResult 4 (Some (str "Very strong"))).
  { destruct pw as [| c t] eqn:E; [cbn in Hlen; lia |].
    rewrite <- E in *. unfold estimateStrength. rewrite E at 1.
    cbn [truthy negb string_of].
    assert (H80 : bits_exceed pw 80 = true).
    { unfold bits_exceed. rewrite Hpool. cbn [Z.ltb Z.compare].
      apply Z.ltb_lt.
      apply Z.lt_le_trans with (m := 94 ^ 13); [reflexivity |].
      apply Z.pow_le_mono_r; lia. }
    rewrite H80. reflexivity. }
  rewrite Hst.
  assert (Htr : truthy (JsString pw) = true).
  { destruct pw; [cbn in Hlen; lia | reflexivity]. }
  rewrite Htr. repeat split; reflexivity.
Qed.

Lemma generateAndShow_very_strong_witness :
  strengthFill_width (fst (generateAndShow (all_on 16) rng_cycle)) =
    str "100%" /\
  strengthFill_background (fst (generateAndShow (all_on 16) rng_cycle)) =
    str "linear-gradient(90deg, #7afcff, #9b7bff)" /\
  strengthText_textContent (fst (generateAndShow (all_on 16) rng_cycle)) =
    str "Very strong (100%)".
Proof.
  exact (generateAndShow_very_strong (all_on 16) rng_cycle
           eq_refl eq_refl eq_refl eq_refl eq_refl
           ltac:(unfold all_on; cbn [length]; lia)).
Defined.

(** * The length field *)

(** X13. When the field's bounds are numbers with [min <= max], the
    listener writes a number between them, whatever was typed; a typed
    number already between them is written unchanged, and a value that
    is not a number becomes [min]. *)
Theorem lengthNumber_input_range (value : jsnum) (min max : Q) :
  (min <= max)%Q ->
  (exists v, lengthNumber_input value (Some min) (Some max) = Some v /\
             (min <= v)%Q /\ (v <= max)%Q) /\
  (forall v, value = Some v -> (min <= v)%Q -> (v <= max)%Q ->
             lengthNumber_input value (Some min) (Some max) = Some v) /\
  (value = None ->
   lengthNumber_input value (Some min) (Some max) = Some min).
Proof.
  intros Hmm.
  assert (Hlt : forall x y, negb (Qle_bool y x) = true <-> (x < y)%Q).
  { intros x y. rewrite negb_true_iff. split.
    - intros H. apply Qnot_le_lt. intros Hle.
      apply Qle_bool_iff in Hle. congruence.
    - intros H. destruct (Qle_bool y x) eqn:E; [| reflexivity].
      apply Qle_bool_iff in E. exfalso. eapply Qlt_not_le; eassumption. }
  assert (Hge : forall x y, negb (Qle_bool y x) = false <-> (y <= x)%Q).
  { intros x y. rewrite negb_false_iff. apply Qle_bool_iff. }
  split; [| split].
  - unfold lengthNumber_input. destruct value as [v |]; cbn [isNaN orb num_lt].
    + destruct (negb (Qle_bool min v)) eqn:E1.
      * destruct (negb (Qle_bool min max)) eqn:E2.
        -- apply Hlt in E2. exfalso. eapply Qlt_not_le; eassumption.
        -- exists min. repeat split; [apply Qle_refl | exact Hmm].
      * apply Hge in E1. destruct (negb (Qle_bool v max)) eqn:E2.
        -- exists max. repeat split; [exact Hmm | apply Qle_refl].
        -- apply Hge in E2. exists v. repeat split; assumption.
    + destruct (negb (Qle_bool min max)) eqn:E2.
      * apply Hlt in E2. exfalso. eapply Qlt_not_le; eassumption.
      * exists min. repeat split; [apply Qle_refl | exact Hmm].
  - intros v -> Hlo Hhi. unfold lengthNumber_input. cbn [isNaN orb num_lt].
    apply Hge in Hlo. rewrite Hlo.
    apply Hge in Hhi. rewrite Hhi. reflexivity.
  - intros ->. unfold lengthNumber_input. cbn [isNaN orb num_lt].
    apply Hge in Hmm. rewrite Hmm. reflexivity.
Qed.

Lemma lengthNumber_input_range_witness :
  lengthNumber_input (Some (200 # 1)) (Some (4 # 1)) (Some (64 # 1)) =
    Some (64 # 1) /\
  lengthNumber_input (Some (12 # 1)) (Some (4 # 1)) (Some (64 # 1)) =
    Some (12 # 1) /\
  lengthNumber_input None (Some (4 # 1)) (Some (64 # 1)) = Some (4 # 1).
Proof.
  assert (H : (4 # 1 <= 64 # 1)%Q) by (unfold Qle; cbn; lia).
  pose proof (lengthNumber_input_range (Some (12 # 1)) (4 # 1) (64 # 1) H)
    as (_ & Hin & _).
  pose proof (lengthNumber_input_range None (4 # 1) (64 # 1) H)
    as (_ & _ & Hnan).
  split; [reflexivity |]. split.
  - apply Hin; [reflexivity | |]; unfold Qle; cbn; lia.
  - apply Hnan. reflexivity.
Defined.

(** * The shuffle and the share of a class *)

(** X14. The shuffle of lines 135-138 rearranges the buffer: its result
    has the same elements as the buffer it is given, each as often, for
    every buffer and every random source. *)
Theorem shuffle_Permutation (a : list (option char)) (rng : RandomSource) :
  Permutation a (fst (shuffle_from (len a - 1) a rng)).
Proof.
  destruct a as [| v a]; [apply Permutation_refl |].
  apply shuffle_from_Permutation. cbn [len]. lia.
Qed.




